(** * N-Queens as a constraint-satisfaction problem

    A shallow embedding of the solver of [Project-2]:
    [ac3.py] (conflict, revise, AC3), [heuristics.py] (MRV and LCV),
    [backtracking.py] (the search driver), [nqueens_csp.py] (set-up and
    report) and [main.py] (the command line).

    Conventions of the embedding.
    - Python integers are [Z]; [range(n)] is [range n = seqZ 0 n].
    - A Python [dict] keyed by rows is a [gmap Z _]; subscripting a missing
      key raises [KeyError].
    - A Python [set] of columns is the list of its members in iteration
      order, without duplicates.  [set(range(n))] iterates in ascending
      order, [set.remove] keeps the order of the other members, [{c}] is
      [[c]].  A copy [set(s)] has the members of [s], but the order in
      which it iterates is the business of the hash table (the copy of a
      pruned set is built in a fresh table): the model leaves it open, as
      the parameter [set_copy] of the search, and what is proved is proved
      for every [set_copy] that keeps the members.
    - Mutation is explicit state passing: a function returns, next to its
      Python result, the contents after the call of the objects it is
      passed and mutates.  Every row owns its set object: [set(...)] and
      [{col}] build fresh ones, and the sets of a snapshot become the sets
      of the rows only when the driver restores from it, after which the
      snapshot is not read again.  So updating the set of a row is an
      update of that row's entry, and a snapshot is a value.  Two dicts of
      sets are equal in Python when they have the same keys with the same
      members ([same_sets]); the order of iteration is no part of it.
    - The two unbounded constructs, the [while queue] loop of [AC3] and the
      recursion of [backtracking_search], run on fuel; [OutOfFuel] is a
      result of its own, distinct from every Python outcome.
    - A run of the console layer is the list of the lines it prints, in
      order, with the way it ends: by returning, by raising or by
      [sys.exit].  The builtin [int] on the argument is a parameter of
      [main]; [str] of an integer is its decimal numeral.
    - The limits of an interpreter (recursion depth, memory, the number of
      digits [str] accepts) are not part of the model.  The nesting of
      [backtracking_search] is what the fuel of the search counts: a search
      with [k] rows unassigned nests at most [k + 1] calls, so that an
      interpreter that allows less raises [RecursionError] where the model
      goes on. *)

From stdpp Require Import base option list gmap sorting strings pretty.
From Stdlib Require Import ZArith Lia.

(** ** Outcomes of a call *)

Inductive pyexn : Set := KeyError | IndexError.

Inductive res (A : Type) : Type :=
| Ok (a : A)
| Raise (e : pyexn)
| OutOfFuel.
Arguments Ok {A} a.
Arguments Raise {A} e.
Arguments OutOfFuel {A}.

Definition bind {A B : Type} (m : res A) (k : A → res B) : res B :=
  match m with
  | Ok a => k a
  | Raise e => Raise e
  | OutOfFuel => OutOfFuel
  end.

Notation "x <- m ; k" := (bind m (λ x, k))
  (at level 20, m at level 100, k at level 200,
   format "'[v' x  <-  m ;  '/' k ']'").
Notation "' p <- m ; k" := (bind m (λ p, k))
  (at level 20, p pattern, m at level 100, k at level 200,
   format "'[v' ' p  <-  m ;  '/' k ']'").

(** [d[k]] on a dict. *)
Definition getitem {V : Type} (d : gmap Z V) (k : Z) : res V :=
  match d !! k with
  | Some v => Ok v
  | None => Raise KeyError
  end.

(** [range(n)] *)
Definition range (n : Z) : list Z := seqZ 0 n.

(** [s.remove(val)] on a set. *)
Definition set_remove (val : Z) (s : list Z) : res (list Z) :=
  if decide (val ∈ s) then Ok (filter (λ v, v ≠ val) s) else Raise KeyError.

(** ** ac3.py *)

Definition conflict (r1 c1 r2 c2 : Z) : bool :=
  if (c1 =? c2)%Z then true
  else (Z.abs (r1 - r2) =? Z.abs (c1 - c2))%Z.

(** The inner loop of [revise]: [conflict_with_all] starts [True] and the
    loop breaks with [False] at the first [vj] that does not conflict. *)
Fixpoint conflict_with_all (Xi vi Xj : Z) (dj : list Z) : bool :=
  match dj with
  | [] => true
  | vj :: dj =>
      if negb (conflict Xi vi Xj vj) then false
      else conflict_with_all Xi vi Xj dj
  end.

(** The first loop of [revise], over the members [di] of [domains[Xi]] still
    to visit; [domains[Xj]] is subscripted once per [vi]. *)
Fixpoint revise_scan (domains : gmap Z (list Z)) (Xi Xj : Z)
    (di : list Z) (to_remove : list Z) : res (list Z) :=
  match di with
  | [] => Ok to_remove
  | vi :: di =>
      dj <- getitem domains Xj;
      revise_scan domains Xi Xj di
        (if conflict_with_all Xi vi Xj dj then to_remove ++ [vi] else to_remove)
  end.

(** The second loop of [revise]. *)
Fixpoint revise_remove (domains : gmap Z (list Z)) (Xi : Z)
    (to_remove : list Z) (removed : bool) : res (bool * gmap Z (list Z)) :=
  match to_remove with
  | [] => Ok (removed, domains)
  | val :: to_remove =>
      s <- getitem domains Xi;
      s' <- set_remove val s;
      revise_remove (<[Xi := s']> domains) Xi to_remove true
  end.

Definition revise (domains : gmap Z (list Z)) (Xi Xj : Z)
    : res (bool * gmap Z (list Z)) :=
  di <- getitem domains Xi;
  to_remove <- revise_scan domains Xi Xj di [];
  revise_remove domains Xi to_remove false.

(** Filling the queue: [for r in range(n): for nb in neighbors[r]]. *)
Fixpoint AC3_init (neighbors : gmap Z (list Z)) (rs : list Z)
    (queue : list (Z * Z)) : res (list (Z * Z)) :=
  match rs with
  | [] => Ok queue
  | r :: rs =>
      nbs <- getitem neighbors r;
      AC3_init neighbors rs (queue ++ ((λ nb, (r, nb)) <$> nbs))
  end.

(** The arcs appended after a removal from [Xi]. *)
Definition requeue (nbs : list Z) (Xi Xj : Z) : list (Z * Z) :=
  (λ Xk, (Xk, Xi)) <$> filter (λ Xk, Xk ≠ Xj) nbs.

(** [while queue: ...], one iteration per unit of fuel. *)
Fixpoint AC3_loop (fuel : nat) (domains neighbors : gmap Z (list Z))
    (queue : list (Z * Z)) : res (bool * gmap Z (list Z)) :=
  match queue with
  | [] => Ok (true, domains)
  | (Xi, Xj) :: queue =>
      match fuel with
      | O => OutOfFuel
      | S fuel =>
          '(removed, domains) <- revise domains Xi Xj;
          if removed then
            di <- getitem domains Xi;
            if (length di =? 0)%nat then Ok (false, domains)
            else
              nbs <- getitem neighbors Xi;
              AC3_loop fuel domains neighbors (queue ++ requeue nbs Xi Xj)
          else AC3_loop fuel domains neighbors queue
      end
  end.

(** The number of members of all sets of a dict of sets, and the longest
    neighbour list: each removal appends at most [max_degree] arcs. *)
Definition total_size (domains : gmap Z (list Z)) : nat :=
  sum_list (length <$> (map_to_list domains).*2).

Definition max_degree (neighbors : gmap Z (list Z)) : nat :=
  max_list (length <$> (map_to_list neighbors).*2).

Definition AC3_measure (domains neighbors : gmap Z (list Z))
    (queue : list (Z * Z)) : nat :=
  length queue + total_size domains * max_degree neighbors.

Definition AC3_fuel (domains neighbors : gmap Z (list Z))
    (queue : list (Z * Z)) : nat :=
  S (AC3_measure domains neighbors queue).

Definition AC3 (domains neighbors : gmap Z (list Z)) (n : Z)
    : res (bool * gmap Z (list Z)) :=
  queue <- AC3_init neighbors (range n) [];
  AC3_loop (AC3_fuel domains neighbors queue) domains neighbors queue.

(** ** heuristics.py *)

(** [l.sort(key=f)]: the keys are computed first, one call of [f] per
    element from left to right; the elements are then ordered by [<] on
    their keys, elements with equal keys keeping their order.  [kltb] is
    [<] on keys; the sort is an insertion sort from the right, which puts an
    element before the elements to its right whose key is not smaller. *)
Section list_sort.
Context {A K : Type} (kltb : K → K → bool).

Fixpoint sort_insert (kx : K) (x : A) (s : list (K * A)) : list (K * A) :=
  match s with
  | [] => [(kx, x)]
  | (ky, y) :: s' =>
      if kltb ky kx then (ky, y) :: sort_insert kx x s'
      else (kx, x) :: (ky, y) :: s'
  end.

Fixpoint sort_keyed (l : list (K * A)) : list (K * A) :=
  match l with
  | [] => []
  | (kx, x) :: l => sort_insert kx x (sort_keyed l)
  end.

Fixpoint sort_keys (f : A → res K) (l : list A) : res (list (K * A)) :=
  match l with
  | [] => Ok []
  | x :: l =>
      kx <- f x;
      rest <- sort_keys f l;
      Ok ((kx, x) :: rest)
  end.

Definition list_sort (f : A → res K) (l : list A) : res (list A) :=
  keyed <- sort_keys f l;
  Ok ((sort_keyed keyed).*2).
End list_sort.

(** [<] on pairs of integers (Python tuples compare lexicographically). *)
Definition tuple_ltb (a b : Z * Z) : bool :=
  (a.1 <? b.1)%Z || ((a.1 =? b.1)%Z && (a.2 <? b.2)%Z).

(** [lambda r: (len(domains[r]), -len(neighbors[r]))] *)
Definition mrv_key (domains neighbors : gmap Z (list Z)) (r : Z) : res (Z * Z) :=
  d <- getitem domains r;
  nbs <- getitem neighbors r;
  Ok (Z.of_nat (length d), - Z.of_nat (length nbs))%Z.

(** The two heuristics return, next to their Python result, the contents
    after the call of all the objects they are passed.  In
    [select_unassigned_row], [unassigned_rows.sort(...)] sorts the list it
    is passed in place. *)
Definition select_unassigned_row (domains : gmap Z (list Z))
    (unassigned_rows : list Z) (neighbors : gmap Z (list Z))
    : res (Z * (gmap Z (list Z) * list Z * gmap Z (list Z))) :=
  unassigned_rows <- list_sort tuple_ltb (mrv_key domains neighbors) unassigned_rows;
  match unassigned_rows with
  | [] => Raise IndexError
  | r :: _ => Ok (r, (domains, unassigned_rows, neighbors))
  end.

(** The loop over [domains[nb]] inside [constraining_cost]. *)
Fixpoint cost_vals (row col nb : Z) (vals : list Z) (cost : Z) : Z :=
  match vals with
  | [] => cost
  | val :: vals =>
      cost_vals row col nb vals
        (if conflict row col nb val then cost + 1 else cost)%Z
  end.

(** The loop over [neighbors[row]]. *)
Fixpoint cost_nbs (domains : gmap Z (list Z)) (row col : Z)
    (nbs : list Z) (cost : Z) : res Z :=
  match nbs with
  | [] => Ok cost
  | nb :: nbs =>
      vals <- getitem domains nb;
      cost_nbs domains row col nbs (cost_vals row col nb vals cost)
  end.

Definition constraining_cost (domains neighbors : gmap Z (list Z))
    (row col : Z) : res Z :=
  nbs <- getitem neighbors row;
  cost_nbs domains row col nbs 0%Z.

(** [values] is a new list ([list(domains[row])]), sorted in place and
    returned. *)
Definition order_domain_values (row : Z) (domains neighbors : gmap Z (list Z))
    : res (list Z * (gmap Z (list Z) * gmap Z (list Z))) :=
  values <- getitem domains row;
  values <- list_sort Z.ltb (constraining_cost domains neighbors row) values;
  Ok (values, (domains, neighbors)).

(** ** backtracking.py *)

(** [[r for r in range(n) if assignment[r] is None]], over the rows [rs]
    still to visit. *)
Fixpoint unassigned (assignment : gmap Z (option Z)) (rs : list Z)
    : res (list Z) :=
  match rs with
  | [] => Ok []
  | r :: rs =>
      a <- getitem assignment r;
      rest <- unassigned assignment rs;
      Ok (if a is None then r :: rest else rest)
  end.

(** [any(conflict(row, col, r2, assignment[r2]) for r2 in range(n)
         if assignment[r2] is not None)]: [assignment[r2]] is subscripted
    for every row up to the first conflict. *)
Fixpoint any_conflict (assignment : gmap Z (option Z)) (row col : Z)
    (rs : list Z) : res bool :=
  match rs with
  | [] => Ok false
  | r2 :: rs =>
      a <- getitem assignment r2;
      match a with
      | None => any_conflict assignment row col rs
      | Some c2 =>
          if conflict row col r2 c2 then Ok true
          else any_conflict assignment row col rs
      end
  end.

(** [{r: set(domains[r]) for r in range(n)}], over the rows [rs] still to
    visit.  [copy r s] is the order in which the copy of the set [s] of row
    [r] iterates. *)
Fixpoint snapshot (copy : Z → list Z → list Z) (domains : gmap Z (list Z))
    (rs : list Z) (saved_domains : gmap Z (list Z)) : res (gmap Z (list Z)) :=
  match rs with
  | [] => Ok saved_domains
  | r :: rs =>
      s <- getitem domains r;
      snapshot copy domains rs (<[r := copy r s]> saved_domains)
  end.

(** [for r in range(n): domains[r] = saved_domains[r]] *)
Fixpoint restore (domains saved_domains : gmap Z (list Z)) (rs : list Z)
    : res (gmap Z (list Z)) :=
  match rs with
  | [] => Ok domains
  | r :: rs =>
      s <- getitem saved_domains r;
      restore (<[r := s]> domains) saved_domains rs
  end.

(** The state the driver mutates: the domains and the assignment. *)
Definition search_state : Type := gmap Z (list Z) * gmap Z (option Z).

(** The order of the copies [set(domains[r])] of a snapshot, given the
    assignment under which the snapshot is taken, the row and the members
    of [domains[r]] in their order.  No two snapshots of one search are
    taken under the same assignment: the columns a call tries for its row
    are the members of a set, so two tentative assignments differ at the
    row where their branches part, or one of them has a row more.  So a
    [set_copy] can give every copy of a run an order of its own, whatever
    the hash tables make of it. *)
Definition copy_order : Type := gmap Z (option Z) → Z → list Z → list Z.

(** [for col in candidate_cols: ...]; [recurse] is the recursive call of
    [backtracking_search]. *)
Section value_trial_loop.
Context (set_copy : copy_order).
Context (recurse : gmap Z (list Z) → gmap Z (option Z) → res (bool * search_state)).
Context (neighbors : gmap Z (list Z)) (n row : Z).

Fixpoint try_cols (candidate_cols : list Z) (domains : gmap Z (list Z))
    (assignment : gmap Z (option Z)) : res (bool * search_state) :=
  match candidate_cols with
  | [] => Ok (false, (domains, assignment))
  | col :: candidate_cols =>
      clash <- any_conflict assignment row col (range n);
      if negb clash then
        let assignment := <[row := Some col]> assignment in
        saved_domains <- snapshot (set_copy assignment) domains (range n) ∅;
        let domains := <[row := [col]]> domains in
        '(consistent, domains) <- AC3 domains neighbors n;
        '(found, (domains, assignment)) <-
          (if consistent : bool then recurse domains assignment
           else Ok (false, (domains, assignment)));
        if found : bool then Ok (true, (domains, assignment))
        else
          let assignment := <[row := None]> assignment in
          domains <- restore domains saved_domains (range n);
          try_cols candidate_cols domains assignment
      else try_cols candidate_cols domains assignment
  end.
End value_trial_loop.

(** One unit of fuel per nested call. *)
Fixpoint backtracking_search_fuel (set_copy : copy_order) (fuel : nat)
    (domains neighbors : gmap Z (list Z)) (assignment : gmap Z (option Z))
    (n : Z) : res (bool * search_state) :=
  match fuel with
  | O => OutOfFuel
  | S fuel =>
      unassigned_rows <- unassigned assignment (range n);
      if bool_decide (unassigned_rows = []) then Ok (true, (domains, assignment))
      else
        '(row, (domains, unassigned_rows, neighbors)) <-
          select_unassigned_row domains unassigned_rows neighbors;
        '(candidate_cols, (domains, neighbors)) <-
          order_domain_values row domains neighbors;
        try_cols set_copy
          (λ domains assignment,
             backtracking_search_fuel set_copy fuel domains neighbors
               assignment n)
          neighbors n row candidate_cols domains assignment
  end.

(** Every nested call has one more row assigned, so the nesting is at most
    [n] deep below the first call. *)
Definition backtracking_search (set_copy : copy_order)
    (domains neighbors : gmap Z (list Z)) (assignment : gmap Z (option Z))
    (n : Z) : res (bool * search_state) :=
  backtracking_search_fuel set_copy (S (Z.to_nat n)) domains neighbors
    assignment n.

(** ** nqueens_csp.py *)

(** [{r: v for r in range(n)}] *)
Definition dict_of_range {V : Type} (v : Z → V) (n : Z) : gmap Z V :=
  foldl (λ d r, <[r := v r]> d) ∅ (range n).

Definition initial_domains (n : Z) : gmap Z (list Z) :=
  dict_of_range (λ _, range n) n.

Definition initial_neighbors (n : Z) : gmap Z (list Z) :=
  dict_of_range (λ r, filter (λ x, x ≠ r) (range n)) n.

Definition initial_assignment (n : Z) : gmap Z (option Z) :=
  dict_of_range (λ _, None) n.

Definition solve_nqueens_csp (set_copy : copy_order) (n : Z)
    : res (option (gmap Z (option Z))) :=
  let domains := initial_domains n in
  let neighbors := initial_neighbors n in
  let assignment := initial_assignment n in
  '(consistent, domains) <- AC3 domains neighbors n;
  if negb consistent then Ok None
  else
    '(success, (_, assignment)) <-
      backtracking_search set_copy domains neighbors assignment n;
    Ok (if success : bool then Some assignment else None).

(** ** Vocabulary of the specification *)

(** Some member of [dj], the domain of [Xj], is compatible with the value
    [v] of [Xi]. *)
Definition supported (Xi Xj : Z) (dj : list Z) (v : Z) : Prop :=
  ∃ w, w ∈ dj ∧ conflict Xi v Xj w = false.

(** The ordered arcs [AC3] starts from: [Xi] in [range(n)] and [Xj] in
    [neighbors[Xi]]. *)
Definition arc (neighbors : gmap Z (list Z)) (n Xi Xj : Z) : Prop :=
  Xi ∈ range n ∧ ∃ nbs, neighbors !! Xi = Some nbs ∧ Xj ∈ nbs.

Definition arc_consistent_on (domains : gmap Z (list Z)) (Xi Xj : Z) : Prop :=
  ∀ di v, domains !! Xi = Some di → v ∈ di →
    ∃ dj, domains !! Xj = Some dj ∧ supported Xi Xj dj v.

Definition arc_consistent (domains neighbors : gmap Z (list Z)) (n : Z) : Prop :=
  ∀ Xi Xj, arc neighbors n Xi Xj → arc_consistent_on domains Xi Xj.

(** The invariant of the loop of [AC3]: every arc is waiting in the queue
    or consistent. *)
Definition AC3_invariant (neighbors : gmap Z (list Z)) (n : Z)
    (domains : gmap Z (list Z)) (queue : list (Z * Z)) : Prop :=
  ∀ Xi Xj, arc neighbors n Xi Xj →
    (Xi, Xj) ∈ queue ∨ arc_consistent_on domains Xi Xj.

(** What [revise] leaves of [di] when the domain of [Xj] is [dj]. *)
Definition revised (Xi Xj : Z) (dj di : list Z) : list Z :=
  filter (λ v, conflict_with_all Xi v Xj dj = false) di.

(** The runs of the [while queue] loop of [AC3], one rule per path through
    the loop body: from the domains and the queue at the loop head to the
    returned truth value and the domains at that point. *)
Inductive AC3_run (neighbors : gmap Z (list Z)) :
    gmap Z (list Z) → list (Z * Z) → bool * gmap Z (list Z) → Prop :=
| run_exhausted domains :
    AC3_run neighbors domains [] (true, domains)
| run_unchanged domains Xi Xj queue domains' r :
    revise domains Xi Xj = Ok (false, domains') →
    AC3_run neighbors domains' queue r →
    AC3_run neighbors domains ((Xi, Xj) :: queue) r
| run_wipeout domains Xi Xj queue domains' :
    revise domains Xi Xj = Ok (true, domains') →
    domains' !! Xi = Some [] →
    AC3_run neighbors domains ((Xi, Xj) :: queue) (false, domains')
| run_requeue domains Xi Xj queue domains' di nbs r :
    revise domains Xi Xj = Ok (true, domains') →
    domains' !! Xi = Some di → di ≠ [] →
    neighbors !! Xi = Some nbs →
    AC3_run neighbors domains' (queue ++ requeue nbs Xi Xj) r →
    AC3_run neighbors domains ((Xi, Xj) :: queue) r.

(** Well-formed inputs: the rows of [range(n)] are keys, the values of
    [domains] are sets, and the neighbour relation is symmetric on the rows
    (so it stays inside [range(n)]). *)
Definition has_rows {V : Type} (n : Z) (d : gmap Z V) : Prop :=
  ∀ r, r ∈ range n → is_Some (d !! r).

Definition sets (domains : gmap Z (list Z)) : Prop :=
  ∀ r s, domains !! r = Some s → NoDup s.

Definition neighbors_in_range (neighbors : gmap Z (list Z)) (n : Z) : Prop :=
  ∀ Xi Xj, arc neighbors n Xi Xj → Xj ∈ range n.

Definition symmetric_neighbors (neighbors : gmap Z (list Z)) (n : Z) : Prop :=
  ∀ Xi Xj, arc neighbors n Xi Xj → arc neighbors n Xj Xi.

Definition well_formed (domains neighbors : gmap Z (list Z)) (n : Z) : Prop :=
  has_rows n domains ∧ sets domains ∧
  has_rows n neighbors ∧ neighbors_in_range neighbors n.

(** [d'] has the keys of [d], each with a sub-list of its members. *)
Definition shrinks (d d' : gmap Z (list Z)) : Prop :=
  ∀ r, match d !! r, d' !! r with
       | Some s, Some s' => sublist s' s
       | None, None => True
       | _, _ => False
       end.

(** [d'] has the keys of [d], each with the same members: what [d == d']
    says of two dicts of sets. *)
Definition same_members (o o' : option (list Z)) : Prop :=
  match o, o' with
  | Some s, Some s' => s' ≡ₚ s
  | None, None => True
  | _, _ => False
  end.

Definition same_sets (d d' : gmap Z (list Z)) : Prop :=
  ∀ r, same_members (d !! r) (d' !! r).

(** A copy of a set has the members of the set. *)
Definition copies (set_copy : copy_order) : Prop :=
  ∀ assignment r s, set_copy assignment r s ≡ₚ s.

(** Two orders of the copies: the order of the original, and its reverse. *)
Definition same_order : copy_order := λ _ _ s, s.

Definition reversed : copy_order := λ _ _ s, reverse s.

(** [list_sort] when the key function returns [g x] on every element. *)
Definition sorted_by {A K : Type} (kltb : K → K → bool) (g : A → K)
    (l : list A) : list A :=
  (sort_keyed kltb ((λ x, (g x, x)) <$> l)).*2.

(** What the claims call a stable ascending sort of [l] by the key [g],
    [kltb] being [<] on keys: the same elements, never a smaller key after
    a larger one, and the elements of each key in the order they had in
    [l]. *)
Definition stable_sort_of {A K : Type} `{EqDecision K} (kltb : K → K → bool)
    (g : A → K) (l out : list A) : Prop :=
  out ≡ₚ l ∧
  StronglySorted (λ a b, kltb (g b) (g a) = false) out ∧
  ∀ k, filter (λ x, g x = k) out = filter (λ x, g x = k) l.

(** The key of [select_unassigned_row] as a function of the row. *)
Definition mrv_key_of (domains neighbors : gmap Z (list Z)) (r : Z) : Z * Z :=
  (Z.of_nat (length (default [] (domains !! r))),
   - Z.of_nat (length (default [] (neighbors !! r))))%Z.

(** The constraining cost in the words of the specification: the number of
    pairs of a neighbour [nb] of [row] and a value [val] of [domains[nb]]
    that conflict with [col] in [row]. *)
Definition conflicting_pairs (domains : gmap Z (list Z)) (nbs : list Z)
    (row col : Z) : list (Z * Z) :=
  filter (λ p, conflict row col p.1 p.2 = true)
    (nbs ≫= λ nb, (λ val, (nb, val)) <$> default [] (domains !! nb)).

Definition lcv_cost (domains neighbors : gmap Z (list Z)) (row col : Z) : Z :=
  Z.of_nat (length (conflicting_pairs domains
                      (default [] (neighbors !! row)) row col)).

(** Assignments: no two assigned rows conflict, every assigned column is a
    column of the board and every key is a row of the board. *)
Definition conflict_free (assignment : gmap Z (option Z)) : Prop :=
  ∀ r1 r2 c1 c2, r1 ≠ r2 →
    assignment !! r1 = Some (Some c1) → assignment !! r2 = Some (Some c2) →
    conflict r1 c1 r2 c2 = false.

Definition on_board (n : Z) (assignment : gmap Z (option Z)) : Prop :=
  (∀ r, is_Some (assignment !! r) → r ∈ range n) ∧
  (∀ r c, assignment !! r = Some (Some c) → c ∈ range n).

(** A solution: every row of the board has a column. *)
Definition solution (n : Z) (assignment : gmap Z (option Z)) : Prop :=
  (∀ r, r ∈ range n → ∃ c, assignment !! r = Some (Some c)) ∧
  on_board n assignment ∧ conflict_free assignment.

(** Every value of every domain is a column of the board. *)
Definition columns_on_board (n : Z) (domains : gmap Z (list Z)) : Prop :=
  ∀ r s c, domains !! r = Some s → c ∈ s → c ∈ range n.

(** What the driver keeps true of its state between two decisions. *)
Definition search_invariant (n : Z) (domains : gmap Z (list Z))
    (assignment : gmap Z (option Z)) : Prop :=
  columns_on_board n domains ∧ on_board n assignment ∧ conflict_free assignment.

(** A call that returns [False] has put the state back, the domains as
    sets; a call that returns [True] from a state of the invariant has
    completed the assignment. *)
Definition restores_and_solves (n : Z)
    (search : gmap Z (list Z) → gmap Z (option Z) → res (bool * search_state))
    : Prop :=
  ∀ domains assignment b domains' assignment',
    search domains assignment = Ok (b, (domains', assignment')) →
    (b = false → same_sets domains domains' ∧ assignment' = assignment) ∧
    (b = true → search_invariant n domains assignment →
       solution n assignment').

(** Three rows, row 0 with columns 0 and 2 left, rows 1 and 2 with one
    column each: the domains of the examples below. *)
Definition example_domains : gmap Z (list Z) :=
  list_to_map [(0, [0; 2]); (1, [0]); (2, [1])]%Z.

(** Three queens with row 0 in column 0: the snapshot of the full domains
    when every copy iterates in reverse, and the domains [AC3] leaves when
    it finds the contradiction. *)
Definition three_queens_snapshot : gmap Z (list Z) :=
  list_to_map [(0, [2; 1; 0]); (1, [2; 1; 0]); (2, [2; 1; 0])]%Z.

Definition three_queens_pruned : gmap Z (list Z) :=
  list_to_map [(0, [0]); (1, [2]); (2, [])]%Z.

(** Four queens: the domains once row 0 is given column 1, and the domains
    [AC3] prunes them to. *)
Definition first_row_assigned : gmap Z (list Z) :=
  <[0%Z := [1%Z]]> (initial_domains 4).

Definition four_queens : gmap Z (list Z) :=
  list_to_map [(0, [1]); (1, [3]); (2, [0]); (3, [2])]%Z.

(** The number of rows of the board still to assign. *)
Definition unassigned_count (n : Z) (assignment : gmap Z (option Z)) : nat :=
  length (filter (λ r, assignment !! r = Some None) (range n)).

(** ** Placements *)

(** A placement gives every row a column.  It is peaceful when no two rows
    of the board conflict, inside the domains when the column of every row
    of the board is in the domain of the row, and it extends an assignment
    when it agrees with it on every assigned row. *)
Definition peaceful (n : Z) (s : Z → Z) : Prop :=
  ∀ r1 r2, r1 ∈ range n → r2 ∈ range n → r1 ≠ r2 →
    conflict r1 (s r1) r2 (s r2) = false.

Definition inside (n : Z) (s : Z → Z) (domains : gmap Z (list Z)) : Prop :=
  ∀ r, r ∈ range n → ∃ di, domains !! r = Some di ∧ s r ∈ di.

Definition extends (s : Z → Z) (assignment : gmap Z (option Z)) : Prop :=
  ∀ r c, assignment !! r = Some (Some c) → s r = c.

(** [n] queens can be placed on the board. *)
Definition solvable (n : Z) : Prop :=
  ∃ s, (∀ r, r ∈ range n → s r ∈ range n) ∧ peaceful n s.

(** No row is its own neighbour. *)
Definition irreflexive_neighbors (neighbors : gmap Z (list Z)) (n : Z) : Prop :=
  ∀ Xi Xj, arc neighbors n Xi Xj → Xi ≠ Xj.

(** [e] has, under each of its keys, members of the domain [d] has there. *)
Definition sub_domains (e d : gmap Z (list Z)) : Prop :=
  ∀ r s v, e !! r = Some s → v ∈ s → ∃ s', d !! r = Some s' ∧ v ∈ s'.

(** The values [P] are members of the domains. *)
Definition protected (P : Z → Z → Prop) (domains : gmap Z (list Z)) : Prop :=
  ∀ r v, P r v → ∃ s, domains !! r = Some s ∧ v ∈ s.

(** A search that returns [False] only from states that no peaceful
    placement inside the domains extends. *)
Definition refutes (n : Z)
    (search : gmap Z (list Z) → gmap Z (option Z) → res (bool * search_state))
    : Prop :=
  ∀ domains assignment state s,
    search domains assignment = Ok (false, state) →
    peaceful n s → inside n s domains → extends s assignment → False.

(** The placement an assignment describes (column 0 where it is silent). *)
Definition placement_of (assignment : gmap Z (option Z)) (r : Z) : Z :=
  match assignment !! r with
  | Some (Some c) => c
  | _ => 0%Z
  end.

(** The placement of four queens with row 0 in column 1. *)
Definition four_queens_placement (r : Z) : Z :=
  if (r =? 0)%Z then 1%Z
  else if (r =? 1)%Z then 3%Z
  else if (r =? 2)%Z then 0%Z
  else 2%Z.

(** ** nqueens_csp.py, print_solution, and main.py *)

(** [str(i)] of an integer, as an f-string formats it: the decimal numeral,
    with a minus sign before a negative one. *)
Definition str (i : Z) : string := pretty i.

(** The exceptions of the console layer: those of the solver, [TypeError]
    ([None + 1]) and [ValueError] (from [int]). *)
Inductive exception : Set :=
| Py (e : pyexn)
| TypeError
| ValueError.

(** How a run ends: by returning, by raising, by [sys.exit(code)], or out
    of fuel. *)
Inductive ending : Set :=
| Returns
| Raises (e : exception)
| Exits (code : Z)
| Unfinished.

(** [f"Row {r+1} -> Column {c + 1}"] *)
Definition row_line (r c : Z) : string :=
  "Row " +:+ str (r + 1) +:+ " -> Column " +:+ str (c + 1).

(** The loop of [print_solution] over the rows [rs] still to print; [out]
    holds the lines printed so far. *)
Fixpoint print_rows (assignment : gmap Z (option Z)) (rs : list Z)
    (out : list string) : list string * ending :=
  match rs with
  | [] => (out, Returns)
  | r :: rs =>
      match assignment !! r with
      | None => (out, Raises (Py KeyError))
      | Some None => (out, Raises TypeError)
      | Some (Some c) => print_rows assignment rs (out ++ [row_line r c])
      end
  end.

(** A run of [print_solution]: the lines it prints and how it ends. *)
Definition print_solution (assignment : option (gmap Z (option Z))) (n : Z)
    : list string * ending :=
  match assignment with
  | None => (["No solution found."], Returns)
  | Some assignment => print_rows assignment (range n) ["Solution found!"]
  end.

(** [if assignment:] on [None] or a dict. *)
Definition truthy (assignment : option (gmap Z (option Z))) : bool :=
  match assignment with
  | None => false
  | Some assignment => bool_decide (assignment ≠ ∅)
  end.

(** A run of [main] on [sys.argv].  The builtin [int] on a string is a
    parameter: [None] stands for its [ValueError]. *)
Definition main (set_copy : copy_order) (int : string → option Z)
    (argv : list string) : list string * ending :=
  if bool_decide (length argv < 2) then
    (["Usage: python main.py <n>"], Exits 1)
  else
    match argv !! 1 with
    | None => ([], Raises (Py IndexError))
    | Some arg =>
        match int arg with
        | None => ([], Raises ValueError)
        | Some n =>
            if (n <? 10)%Z then
              (["The value must be between 10<=n<=1000"], Exits 0)
            else
              match solve_nqueens_csp set_copy n with
              | Ok assignment =>
                  if truthy assignment then print_solution assignment n
                  else (["No solution found"], Returns)
              | Raise e => ([], Raises (Py e))
              | OutOfFuel => ([], Unfinished)
              end
        end
    end.

(** What a successful search has done to the assignment: the rows that
    were assigned keep their columns, and the column of a row that was
    unassigned is a member of the domain the row had. *)
Definition keeps_assigned (assignment assignment' : gmap Z (option Z)) : Prop :=
  ∀ r c, assignment !! r = Some (Some c) → assignment' !! r = Some (Some c).

Definition chosen_from (domains : gmap Z (list Z))
    (assignment assignment' : gmap Z (option Z)) : Prop :=
  ∀ r c, assignment !! r = Some None → assignment' !! r = Some (Some c) →
    ∃ di, domains !! r = Some di ∧ c ∈ di.

Definition respects
    (search : gmap Z (list Z) → gmap Z (option Z) → res (bool * search_state))
    : Prop :=
  ∀ domains assignment domains' assignment',
    search domains assignment = Ok (true, (domains', assignment')) →
    keeps_assigned assignment assignment' ∧
    chosen_from domains assignment assignment'.

(** Four queens with row 0 placed in column 1. *)
Definition first_row_placed : gmap Z (option Z) :=
  <[0%Z := Some 1%Z]> (initial_assignment 4).

(** * Properties *)

(** ** The cases of test_nqueens.py *)

Example test_conflict :
  conflict 0 2 2 2 = true ∧ conflict 0 2 1 3 = true ∧
  conflict 0 0 1 1 = true ∧ conflict 2 3 4 1 = true ∧
  conflict 0 0 2 1 = false.
Proof. by vm_compute. Qed.

Example test_nqueens_small_invalid (set_copy : copy_order) :
  solve_nqueens_csp set_copy 3 = Ok None.
Proof. vm_compute. reflexivity. Qed.

(** Three queens: the first [AC3] already empties the domain of row 2. *)
Example AC3_three_queens :
  AC3 (initial_domains 3) (initial_neighbors 3) 3
  = Ok (false, list_to_map [(0, [0; 2]); (1, [0; 2]); (2, [])]%Z).
Proof. vm_compute. reflexivity. Qed.

(** ** Outcomes *)

Lemma bind_Ok {A B : Type} (m : res A) (k : A → res B) (b : B) :
  bind m k = Ok b ↔ ∃ a, m = Ok a ∧ k a = Ok b.
Proof.
  split.
  - destruct m as [a| |]; simpl; [eauto|done..].
  - by intros (a & -> & ?).
Qed.

Lemma getitem_Ok {V : Type} (d : gmap Z V) (k : Z) (v : V) :
  getitem d k = Ok v ↔ d !! k = Some v.
Proof. unfold getitem. destruct (d !! k); naive_solver. Qed.

Lemma getitem_Some {V : Type} (d : gmap Z V) (k : Z) (v : V) :
  d !! k = Some v → getitem d k = Ok v.
Proof. by intros ?%getitem_Ok. Qed.

Lemma getitem_not_OutOfFuel {V : Type} (d : gmap Z V) (k : Z) :
  getitem d k ≠ OutOfFuel.
Proof. unfold getitem. by destruct (d !! k). Qed.

(** Take apart a hypothesis [x <- m; k = Ok r]. *)
Ltac inv_bind H :=
  let a := fresh "a" in
  let Ha := fresh "Ha" in
  apply bind_Ok in H as (a & Ha & H).

Lemma elem_of_range (n r : Z) : r ∈ range n ↔ (0 ≤ r < n)%Z.
Proof. unfold range. rewrite elem_of_seqZ. lia. Qed.

(** ** Lists as sets *)

Lemma filter_all {A : Type} (P : A → Prop) `{!∀ x, Decision (P x)} (l : list A) :
  (∀ x, x ∈ l → P x) → filter P l = l.
Proof.
  induction l as [|x l IH]; intros Hl; [done|].
  rewrite filter_cons_True by (apply Hl; by left).
  f_equal. apply IH. intros y ?. apply Hl. by right.
Qed.

Lemma filter_ext_in {A : Type} (P Q : A → Prop)
    `{!∀ x, Decision (P x), !∀ x, Decision (Q x)} (l : list A) :
  (∀ x, x ∈ l → P x ↔ Q x) → filter P l = filter Q l.
Proof.
  induction l as [|x l IH]; intros Hl; [done|].
  rewrite !filter_cons.
  assert (P x ↔ Q x) as Hx by (apply Hl; by left).
  rewrite IH by (intros y ?; apply Hl; by right).
  destruct (decide (P x)), (decide (Q x)); first [done|exfalso; tauto].
Qed.

Lemma filter_all_or_shorter {A : Type} (P : A → Prop) `{!∀ x, Decision (P x)}
    (l : list A) :
  filter P l = l ∨ length (filter P l) < length l.
Proof.
  induction l as [|x l IH]; [by left|].
  rewrite filter_cons. case_decide; simpl.
  - destruct IH as [->|?]; [by left|right; lia].
  - right. pose proof (length_filter P l). lia.
Qed.

(** ** conflict *)

Lemma conflict_true (r1 c1 r2 c2 : Z) :
  conflict r1 c1 r2 c2 = true ↔
  c1 = c2 ∨ Z.abs (r1 - r2) = Z.abs (c1 - c2).
Proof.
  unfold conflict. destruct (Z.eqb_spec c1 c2) as [->|Hne].
  - naive_solver.
  - rewrite Z.eqb_eq. split; [by right|]. by intros [?|?].
Qed.

Lemma conflict_sym (r1 c1 r2 c2 : Z) :
  conflict r1 c1 r2 c2 = conflict r2 c2 r1 c1.
Proof.
  apply eq_true_iff_eq. rewrite !conflict_true.
  split; (intros [Heq|Habs]; [left; congruence|right; lia]).
Qed.

(** C5: [conflict] is true exactly for equal columns or equal row and column
    distances, it is symmetric in the two squares, and two squares of one
    column in different rows conflict.  (The embedding of [conflict] is a
    function of its four arguments only: it reads and writes no state.) *)
Theorem conflict_spec (row1 col1 row2 col2 c : Z) :
  (conflict row1 col1 row2 col2 = true ↔
     col1 = col2 ∨ Z.abs (row1 - row2) = Z.abs (col1 - col2)) ∧
  conflict row1 col1 row2 col2 = conflict row2 col2 row1 col1 ∧
  (row1 ≠ row2 → conflict row1 c row2 c = true).
Proof.
  split; [apply conflict_true|]. split; [apply conflict_sym|].
  intros _. apply conflict_true. by left.
Qed.

Lemma conflict_spec_witness :
  (conflict 0 0 1 1 = true ↔ 0 = 1 ∨ Z.abs (0 - 1) = Z.abs (0 - 1))%Z ∧
  conflict 0 0 1 1 = conflict 1 1 0 0 ∧
  (0 ≠ 1 → conflict 0 5 1 5 = true)%Z.
Proof. apply (conflict_spec 0 0 1 1 5). Defined.

(** ** revise *)

Lemma conflict_with_all_true (Xi vi Xj : Z) (dj : list Z) :
  conflict_with_all Xi vi Xj dj = true ↔
  ∀ vj, vj ∈ dj → conflict Xi vi Xj vj = true.
Proof.
  induction dj as [|vj dj IH]; simpl.
  - split; [|done]. by intros _ ? ?%elem_of_nil.
  - destruct (conflict Xi vi Xj vj) eqn:Hc; simpl.
    + rewrite IH. split.
      * intros H w [->|?]%elem_of_cons; auto.
      * intros H w ?. apply H. by right.
    + split; [done|]. intros H. rewrite <- Hc. apply H. by left.
Qed.

Lemma conflict_with_all_false (Xi vi Xj : Z) (dj : list Z) :
  conflict_with_all Xi vi Xj dj = false ↔ supported Xi Xj dj vi.
Proof.
  unfold supported. induction dj as [|vj dj IH]; simpl.
  - split; [done|]. by intros (w & ?%elem_of_nil & _).
  - destruct (conflict Xi vi Xj vj) eqn:Hc; simpl.
    + rewrite IH. split.
      * intros (w & ? & ?). exists w. split; [by right|done].
      * intros (w & [->|?]%elem_of_cons & ?); [congruence|eauto].
    + split; [|done]. intros _. exists vj. split; [by left|done].
Qed.

Lemma revise_scan_Ok (domains : gmap Z (list Z)) (Xi Xj : Z)
    (di to_remove out : list Z) :
  revise_scan domains Xi Xj di to_remove = Ok out →
  (di ≠ [] → is_Some (domains !! Xj)) ∧
  out = to_remove ++
        filter (λ v, conflict_with_all Xi v Xj (default [] (domains !! Xj)) = true) di.
Proof.
  revert to_remove. induction di as [|vi di IH]; intros to_remove H; simpl in H.
  - split; [done|]. simplify_eq. by rewrite app_nil_r.
  - inv_bind H. apply getitem_Ok in Ha. apply IH in H as [_ ->].
    split; [by rewrite Ha|]. rewrite Ha. simpl. rewrite filter_cons.
    destruct (conflict_with_all Xi vi Xj a) eqn:Hc.
    + rewrite decide_True by done. by rewrite <- (assoc_L (++)).
    + rewrite decide_False by congruence. done.
Qed.

Lemma revise_scan_total (domains : gmap Z (list Z)) (Xi Xj : Z)
    (di to_remove : list Z) :
  (di ≠ [] → is_Some (domains !! Xj)) →
  ∃ out, revise_scan domains Xi Xj di to_remove = Ok out.
Proof.
  revert to_remove. induction di as [|vi di IH]; intros to_remove H; simpl.
  - eauto.
  - destruct H as [dj Hdj]; [done|]. rewrite (getitem_Some _ _ _ Hdj). simpl.
    apply IH. intros _. eauto.
Qed.

Lemma revise_remove_Ok (domains : gmap Z (list Z)) (Xi : Z)
    (to_remove : list Z) (removed removed' : bool) (domains' : gmap Z (list Z))
    (s : list Z) :
  revise_remove domains Xi to_remove removed = Ok (removed', domains') →
  domains !! Xi = Some s →
  domains' = <[Xi := filter (λ v, v ∉ to_remove) s]> domains ∧
  removed' = removed || bool_decide (to_remove ≠ []).
Proof.
  revert domains removed s.
  induction to_remove as [|val to_remove IH]; intros domains removed s H Hs;
    simpl in H.
  - simplify_eq. split.
    + rewrite filter_all by (intros v _; apply not_elem_of_nil).
      by rewrite insert_id.
    + rewrite bool_decide_false by naive_solver. by rewrite orb_false_r.
  - inv_bind H. apply getitem_Ok in Ha. simplify_eq.
    inv_bind H. unfold set_remove in Ha0. case_decide; [|done]. simplify_eq.
    eapply IH in H as [-> ->]; [|apply lookup_insert_eq].
    split.
    + rewrite insert_insert_eq. f_equal. rewrite list_filter_filter.
      apply list_filter_iff. intros v. rewrite elem_of_cons. tauto.
    + rewrite (bool_decide_true (val :: to_remove ≠ [])) by done.
      by rewrite orb_true_r.
Qed.

Lemma revise_remove_total (domains : gmap Z (list Z)) (Xi : Z)
    (to_remove : list Z) (removed : bool) (s : list Z) :
  domains !! Xi = Some s → NoDup to_remove → to_remove ⊆ s →
  ∃ r, revise_remove domains Xi to_remove removed = Ok r.
Proof.
  revert domains removed s.
  induction to_remove as [|val to_remove IH];
    intros domains removed s Hs Hnd Hsub; simpl.
  - eauto.
  - rewrite (getitem_Some _ _ _ Hs). simpl. unfold set_remove.
    rewrite decide_True by (apply Hsub; by left). simpl.
    apply NoDup_cons in Hnd as [Hval Hnd].
    eapply IH; [apply lookup_insert_eq|done|].
    intros v Hv. apply list_elem_of_filter. split.
    + intros ->. done.
    + apply Hsub. by right.
Qed.

Lemma filter_nil_iff {A : Type} (P : A → Prop) `{!∀ x, Decision (P x)} (l : list A) :
  filter P l = [] ↔ ∀ x, x ∈ l → ¬ P x.
Proof.
  split.
  - intros Hnil x Hx HP. by eapply filter_nil_not_elem_of.
  - intros Hl. induction l as [|x l IH]; [done|].
    rewrite filter_cons_False by (apply Hl; by left).
    apply IH. intros y ?. apply Hl. by right.
Qed.

(** [revise] in one equation: the domain of [Xi] becomes [revised], nothing
    else changes, and the result tells whether a member lacked support. *)
Lemma revise_Ok (domains : gmap Z (list Z)) (Xi Xj : Z) (removed : bool)
    (domains' : gmap Z (list Z)) :
  revise domains Xi Xj = Ok (removed, domains') →
  ∃ di, domains !! Xi = Some di ∧
    (di ≠ [] → is_Some (domains !! Xj)) ∧
    let dj := default [] (domains !! Xj) in
    domains' = <[Xi := revised Xi Xj dj di]> domains ∧
    (removed = false ↔ ∀ v, v ∈ di → supported Xi Xj dj v).
Proof.
  unfold revise. intros H. inv_bind H. apply getitem_Ok in Ha.
  exists a. split; [done|]. inv_bind H.
  apply revise_scan_Ok in Ha0 as [Hj ->]. split; [done|]. simpl in *.
  eapply revise_remove_Ok in H as [-> ->]; [|done]. split.
  - f_equal. unfold revised. apply filter_ext_in. intros v Hv.
    rewrite list_elem_of_filter.
    destruct (conflict_with_all _ _ _ _); intuition congruence.
  - simpl. rewrite bool_decide_eq_false. split.
    + intros Hnil v Hv. apply conflict_with_all_false.
      apply not_true_is_false. intros Hc. apply Hnil. intros Hf.
      by eapply (filter_nil_not_elem_of _ _ v Hf).
    + intros Hsup Hne. apply Hne. apply filter_nil_iff. intros v Hv Hc.
      apply Hsup, conflict_with_all_false in Hv. congruence.
Qed.

Lemma revise_unchanged (domains : gmap Z (list Z)) (Xi Xj : Z)
    (domains' : gmap Z (list Z)) :
  revise domains Xi Xj = Ok (false, domains') → domains' = domains.
Proof.
  intros (di & Hi & _ & -> & Hsup)%revise_Ok.
  unfold revised. rewrite filter_all; [by rewrite insert_id|].
  intros v Hv. apply conflict_with_all_false. by apply Hsup.
Qed.

Lemma revise_total (domains : gmap Z (list Z)) (Xi Xj : Z) (di : list Z) :
  domains !! Xi = Some di → NoDup di →
  (di ≠ [] → is_Some (domains !! Xj)) →
  ∃ r, revise domains Xi Xj = Ok r.
Proof.
  intros Hi Hnd Hj. unfold revise. rewrite (getitem_Some _ _ _ Hi). simpl.
  destruct (revise_scan_total domains Xi Xj di [] Hj) as [out Hout].
  rewrite Hout. simpl. apply revise_scan_Ok in Hout as [_ ->]. simpl.
  eapply revise_remove_total; [done|by apply NoDup_filter|].
  intros v [_ ?]%list_elem_of_filter. done.
Qed.

(** ** shrinks *)

Lemma shrinks_refl (d : gmap Z (list Z)) : shrinks d d.
Proof. intros r. by destruct (d !! r). Qed.

Lemma shrinks_trans (d1 d2 d3 : gmap Z (list Z)) :
  shrinks d1 d2 → shrinks d2 d3 → shrinks d1 d3.
Proof.
  intros H12 H23 r. specialize (H12 r). specialize (H23 r).
  destruct (d1 !! r), (d2 !! r), (d3 !! r); try done.
  by etrans.
Qed.

Lemma shrinks_insert (d : gmap Z (list Z)) (r : Z) (s s' : list Z) :
  d !! r = Some s → sublist s' s → shrinks d (<[r := s']> d).
Proof.
  intros Hr Hsub k. destruct (decide (r = k)) as [->|Hne].
  - by rewrite lookup_insert_eq, Hr.
  - rewrite lookup_insert_ne by done. by destruct (d !! k).
Qed.

Lemma shrinks_lookup (d d' : gmap Z (list Z)) (r : Z) (s : list Z) :
  shrinks d d' → d !! r = Some s → ∃ s', d' !! r = Some s' ∧ sublist s' s.
Proof.
  intros H Hr. specialize (H r). rewrite Hr in H.
  destruct (d' !! r); [eauto|done].
Qed.

Lemma shrinks_lookup_inv (d d' : gmap Z (list Z)) (r : Z) (s' : list Z) :
  shrinks d d' → d' !! r = Some s' → ∃ s, d !! r = Some s ∧ sublist s' s.
Proof.
  intros H Hr. specialize (H r). rewrite Hr in H.
  destruct (d !! r); [eauto|done].
Qed.

Lemma shrinks_has_rows (d d' : gmap Z (list Z)) (n : Z) :
  shrinks d d' → has_rows n d → has_rows n d'.
Proof.
  intros H Hd r [s Hs]%Hd. destruct (shrinks_lookup _ _ _ _ H Hs) as (? & ? & _).
  eauto.
Qed.

Lemma shrinks_sets (d d' : gmap Z (list Z)) :
  shrinks d d' → sets d → sets d'.
Proof.
  intros H Hd r s' (s & Hs & Hsub)%(shrinks_lookup_inv _ _ _ _ H).
  eapply sublist_NoDup; [|done]. by eapply Hd.
Qed.

Lemma revise_shrinks (domains : gmap Z (list Z)) (Xi Xj : Z) (removed : bool)
    (domains' : gmap Z (list Z)) :
  revise domains Xi Xj = Ok (removed, domains') → shrinks domains domains'.
Proof.
  intros (di & Hi & _ & -> & _)%revise_Ok.
  eapply shrinks_insert; [done|]. apply sublist_filter.
Qed.

(** ** AC3: the queue and the runs of the loop *)

Lemma AC3_init_Ok (neighbors : gmap Z (list Z)) (rs : list Z)
    (queue out : list (Z * Z)) :
  AC3_init neighbors rs queue = Ok out →
  (∀ r, r ∈ rs → is_Some (neighbors !! r)) ∧
  ∀ a b, (a, b) ∈ out ↔
    (a, b) ∈ queue ∨ (a ∈ rs ∧ ∃ nbs, neighbors !! a = Some nbs ∧ b ∈ nbs).
Proof.
  revert queue. induction rs as [|r rs IH]; intros queue H; simpl in H.
  - simplify_eq. split; [by intros ? ?%elem_of_nil|].
    intros a b. split; [by left|]. by intros [?|[?%elem_of_nil _]].
  - inv_bind H. apply getitem_Ok in Ha. apply IH in H as [Hrs Hout]. split.
    + intros k [->|?]%elem_of_cons; [by rewrite Ha|by apply Hrs].
    + intros x y. rewrite Hout, elem_of_app, list_elem_of_fmap, elem_of_cons.
      split.
      * intros [[?|(nb & ? & ?)]|(? & ?)]; [by left|simplify_eq|by eauto].
        right. split; [by left|eauto].
      * intros [?|[[->|?] (nbs & Hnbs & ?)]]; [by left;left| |by right;eauto].
        left. right. exists y. by simplify_eq.
Qed.

Lemma AC3_init_total (neighbors : gmap Z (list Z)) (rs : list Z)
    (queue : list (Z * Z)) :
  (∀ r, r ∈ rs → is_Some (neighbors !! r)) →
  ∃ out, AC3_init neighbors rs queue = Ok out.
Proof.
  revert queue. induction rs as [|r rs IH]; intros queue Hrs; simpl.
  - eauto.
  - destruct (Hrs r) as [nbs Hnbs]; [by left|].
    rewrite (getitem_Some _ _ _ Hnbs). simpl.
    apply IH. intros k ?. apply Hrs. by right.
Qed.

Lemma AC3_init_length (neighbors : gmap Z (list Z)) (rs : list Z)
    (queue out : list (Z * Z)) :
  AC3_init neighbors rs queue = Ok out → length queue ≤ length out.
Proof.
  revert queue. induction rs as [|r rs IH]; intros queue H; simpl in H.
  - by simplify_eq.
  - inv_bind H. apply IH in H. rewrite length_app in H. lia.
Qed.

(** The initial queue holds exactly the arcs. *)
Lemma AC3_init_arcs (neighbors : gmap Z (list Z)) (n : Z) (queue : list (Z * Z)) :
  AC3_init neighbors (range n) [] = Ok queue →
  ∀ Xi Xj, (Xi, Xj) ∈ queue ↔ arc neighbors n Xi Xj.
Proof.
  intros [_ H]%AC3_init_Ok Xi Xj. rewrite H. unfold arc.
  split; [|by right]. by intros [?%elem_of_nil|?].
Qed.

Lemma AC3_loop_run (fuel : nat) (domains neighbors : gmap Z (list Z))
    (queue : list (Z * Z)) (r : bool * gmap Z (list Z)) :
  AC3_loop fuel domains neighbors queue = Ok r →
  AC3_run neighbors domains queue r.
Proof.
  revert domains queue.
  induction fuel as [|fuel IH]; intros domains [|[Xi Xj] queue] H;
    simpl in H; simplify_eq; try constructor.
  inv_bind H. destruct a as [[] domains'].
  - inv_bind H. apply getitem_Ok in Ha0. destruct a as [|v di]; simpl in H.
    + simplify_eq. by eapply run_wipeout.
    + inv_bind H. apply getitem_Ok in Ha1.
      eapply run_requeue; eauto.
  - eapply run_unchanged; eauto.
Qed.

Lemma AC3_run_shrinks (neighbors domains : gmap Z (list Z))
    (queue : list (Z * Z)) (b : bool) (domains' : gmap Z (list Z)) :
  AC3_run neighbors domains queue (b, domains') → shrinks domains domains'.
Proof.
  intros H. remember (b, domains') as r eqn:Hr.
  induction H as [d|d Xi Xj q d1 r Hrev _ IH|d Xi Xj q d1 Hrev _
                 |d Xi Xj q d1 di nbs r Hrev _ _ _ _ IH]; simplify_eq.
  - apply shrinks_refl.
  - eapply shrinks_trans; [by eapply revise_shrinks|by apply IH].
  - by eapply revise_shrinks.
  - eapply shrinks_trans; [by eapply revise_shrinks|by apply IH].
Qed.

Lemma AC3_run_of_AC3 (domains neighbors : gmap Z (list Z)) (n : Z)
    (r : bool * gmap Z (list Z)) :
  AC3 domains neighbors n = Ok r →
  ∃ queue, AC3_init neighbors (range n) [] = Ok queue ∧
           AC3_run neighbors domains queue r.
Proof.
  unfold AC3. intros H. inv_bind H. exists a. split; [done|].
  by eapply AC3_loop_run.
Qed.

Lemma AC3_shrinks (domains neighbors : gmap Z (list Z)) (n : Z) (b : bool)
    (domains' : gmap Z (list Z)) :
  AC3 domains neighbors n = Ok (b, domains') → shrinks domains domains'.
Proof. intros (q & _ & H)%AC3_run_of_AC3. by eapply AC3_run_shrinks. Qed.

(** C10: a call of [revise] or of [AC3] that returns, with either truth
    value, leaves under every key a domain that is part of the domain the
    key had before the call. *)
Theorem AC3_revise_only_remove (domains neighbors : gmap Z (list Z))
    (n Xi Xj : Z) (b : bool) (domains' : gmap Z (list Z)) (r : Z) (s : list Z)
    (Hcall : revise domains Xi Xj = Ok (b, domains') ∨
             AC3 domains neighbors n = Ok (b, domains'))
    (Hr : domains !! r = Some s) :
  ∃ s', domains' !! r = Some s' ∧ s' ⊆ s ∧ sublist s' s.
Proof.
  assert (shrinks domains domains') as Hsh.
  { destruct Hcall; [by eapply revise_shrinks|by eapply AC3_shrinks]. }
  destruct (shrinks_lookup _ _ _ _ Hsh Hr) as (s' & ? & ?).
  exists s'. split; [done|]. split; [by apply sublist_subseteq|done].
Qed.

Lemma AC3_revise_only_remove_witness :
  ∃ s', (<[0%Z := []]> (initial_domains 2) : gmap Z (list Z)) !! 0%Z = Some s' ∧
        s' ⊆ [0; 1]%Z ∧ sublist s' [0; 1]%Z.
Proof.
  apply (AC3_revise_only_remove (initial_domains 2) (initial_neighbors 2)
           2 0 1 false (<[0%Z := []]> (initial_domains 2)) 0 [0; 1]%Z).
  - right. vm_compute. reflexivity.
  - vm_compute. reflexivity.
Defined.

(** ** AC3: the loop ends *)

Lemma total_size_insert (d : gmap Z (list Z)) (k : Z) (s s' : list Z) :
  d !! k = Some s →
  total_size (<[k := s']> d) + length s = total_size d + length s'.
Proof.
  intros Hk. unfold total_size.
  rewrite <- (map_to_list_delete d k s Hk).
  rewrite <- insert_delete_eq.
  rewrite map_to_list_insert by apply lookup_delete_eq.
  simpl. lia.
Qed.

Lemma max_degree_le (neighbors : gmap Z (list Z)) (k : Z) (nbs : list Z) :
  neighbors !! k = Some nbs → length nbs ≤ max_degree neighbors.
Proof.
  intros Hk. unfold max_degree. apply max_list_elem_of_le.
  apply list_elem_of_fmap. exists nbs. split; [done|].
  apply list_elem_of_fmap. exists (k, nbs). split; [done|].
  by apply elem_of_map_to_list.
Qed.

Lemma length_requeue (nbs : list Z) (Xi Xj : Z) :
  length (requeue nbs Xi Xj) ≤ length nbs.
Proof. unfold requeue. rewrite length_fmap. apply length_filter. Qed.

Lemma revise_removed_size (domains : gmap Z (list Z)) (Xi Xj : Z)
    (domains' : gmap Z (list Z)) :
  revise domains Xi Xj = Ok (true, domains') →
  total_size domains' < total_size domains.
Proof.
  intros (di & Hi & _ & -> & Hsup)%revise_Ok.
  pose proof (total_size_insert domains Xi di
                (revised Xi Xj (default [] (domains !! Xj)) di) Hi) as Hsz.
  enough (length (revised Xi Xj (default [] (domains !! Xj)) di) < length di)
    by lia.
  destruct (filter_all_or_shorter
    (λ v, conflict_with_all Xi v Xj (default [] (domains !! Xj)) = false) di)
    as [Heq|Hlt]; [|done].
  exfalso. assert (true = false); [|done]. apply Hsup. intros v Hv.
  apply conflict_with_all_false. rewrite <- Heq in Hv.
  by apply list_elem_of_filter in Hv as [? _].
Qed.

Lemma AC3_measure_requeue (domains neighbors : gmap Z (list Z)) (Xi Xj : Z)
    (queue : list (Z * Z)) (domains' : gmap Z (list Z)) (nbs : list Z) :
  revise domains Xi Xj = Ok (true, domains') →
  neighbors !! Xi = Some nbs →
  AC3_measure domains' neighbors (queue ++ requeue nbs Xi Xj)
  < AC3_measure domains neighbors ((Xi, Xj) :: queue).
Proof.
  intros Hrev%revise_removed_size Hnbs%max_degree_le.
  unfold AC3_measure. rewrite length_app. simpl.
  pose proof (length_requeue nbs Xi Xj). nia.
Qed.

Lemma bind_not_OutOfFuel {A B : Type} (m : res A) (k : A → res B) :
  m ≠ OutOfFuel → (∀ a, m = Ok a → k a ≠ OutOfFuel) → bind m k ≠ OutOfFuel.
Proof. destruct m; simpl; eauto. Qed.

Lemma revise_scan_not_OutOfFuel (domains : gmap Z (list Z)) (Xi Xj : Z)
    (di to_remove : list Z) :
  revise_scan domains Xi Xj di to_remove ≠ OutOfFuel.
Proof.
  revert to_remove. induction di as [|vi di IH]; intros to_remove; simpl; [done|].
  apply bind_not_OutOfFuel; [apply getitem_not_OutOfFuel|auto].
Qed.

Lemma revise_remove_not_OutOfFuel (domains : gmap Z (list Z)) (Xi : Z)
    (to_remove : list Z) (removed : bool) :
  revise_remove domains Xi to_remove removed ≠ OutOfFuel.
Proof.
  revert domains removed.
  induction to_remove as [|val to_remove IH]; intros domains removed; simpl;
    [done|].
  apply bind_not_OutOfFuel; [apply getitem_not_OutOfFuel|intros s _].
  apply bind_not_OutOfFuel; [|auto]. unfold set_remove. by case_decide.
Qed.

Lemma revise_not_OutOfFuel (domains : gmap Z (list Z)) (Xi Xj : Z) :
  revise domains Xi Xj ≠ OutOfFuel.
Proof.
  unfold revise.
  apply bind_not_OutOfFuel; [apply getitem_not_OutOfFuel|intros di _].
  apply bind_not_OutOfFuel; [apply revise_scan_not_OutOfFuel|intros tr _].
  apply revise_remove_not_OutOfFuel.
Qed.

Lemma AC3_init_not_OutOfFuel (neighbors : gmap Z (list Z)) (rs : list Z)
    (queue : list (Z * Z)) :
  AC3_init neighbors rs queue ≠ OutOfFuel.
Proof.
  revert queue. induction rs as [|r rs IH]; intros queue; simpl; [done|].
  apply bind_not_OutOfFuel; [apply getitem_not_OutOfFuel|auto].
Qed.

(** The measure bounds the number of iterations, whatever the input. *)
Lemma AC3_loop_not_OutOfFuel (fuel : nat) (domains neighbors : gmap Z (list Z))
    (queue : list (Z * Z)) :
  AC3_measure domains neighbors queue < fuel →
  AC3_loop fuel domains neighbors queue ≠ OutOfFuel.
Proof.
  revert domains queue.
  induction fuel as [|fuel IH]; intros domains [|[Xi Xj] queue] Hm; simpl;
    try done; [lia|].
  apply bind_not_OutOfFuel; [apply revise_not_OutOfFuel|].
  intros [[] domains'] Hrev.
  - apply bind_not_OutOfFuel; [apply getitem_not_OutOfFuel|intros di _].
    destruct (length di =? 0)%nat; [done|].
    apply bind_not_OutOfFuel; [apply getitem_not_OutOfFuel|].
    intros nbs Hnbs%getitem_Ok. apply IH.
    pose proof (AC3_measure_requeue _ _ _ _ queue _ _ Hrev Hnbs). lia.
  - apply revise_unchanged in Hrev as ->. apply IH.
    unfold AC3_measure in *. simpl in Hm. lia.
Qed.

Lemma AC3_not_OutOfFuel (domains neighbors : gmap Z (list Z)) (n : Z) :
  AC3 domains neighbors n ≠ OutOfFuel.
Proof.
  unfold AC3.
  apply bind_not_OutOfFuel; [apply AC3_init_not_OutOfFuel|intros queue _].
  apply AC3_loop_not_OutOfFuel. unfold AC3_fuel, AC3_measure. lia.
Qed.

(** ** The initial model *)

Lemma lookup_foldl_insert {V : Type} (v : Z → V) (l : list Z) (d : gmap Z V)
    (k : Z) :
  foldl (λ d r, <[r := v r]> d) d l !! k =
  if decide (k ∈ l) then Some (v k) else d !! k.
Proof.
  revert d. induction l as [|r l IH]; intros d; simpl; [done|].
  rewrite IH. destruct (decide (k ∈ l)) as [Hin|Hnin].
  - rewrite decide_True; [done|by right].
  - destruct (decide (r = k)) as [->|Hne].
    + rewrite lookup_insert_eq. rewrite decide_True; [done|by left].
    + rewrite lookup_insert_ne by done.
      rewrite decide_False; [done|]. by intros [->|?]%elem_of_cons.
Qed.

Lemma lookup_dict_of_range {V : Type} (v : Z → V) (n k : Z) :
  dict_of_range v n !! k = if decide (k ∈ range n) then Some (v k) else None.
Proof. unfold dict_of_range. by rewrite lookup_foldl_insert, lookup_empty. Qed.

Lemma lookup_dict_of_range_Some {V : Type} (v : Z → V) (n k : Z) (x : V) :
  dict_of_range v n !! k = Some x ↔ k ∈ range n ∧ x = v k.
Proof. rewrite lookup_dict_of_range. case_decide; intuition congruence. Qed.

Lemma initial_arc (n Xi Xj : Z) :
  arc (initial_neighbors n) n Xi Xj ↔ Xi ∈ range n ∧ Xj ∈ range n ∧ Xi ≠ Xj.
Proof.
  unfold arc, initial_neighbors. split.
  - intros (Hi & nbs & (_ & ->)%lookup_dict_of_range_Some & Hj).
    apply list_elem_of_filter in Hj as [? ?]. done.
  - intros (Hi & Hj & Hne). split; [done|].
    eexists. split; [by apply lookup_dict_of_range_Some|].
    by apply list_elem_of_filter.
Qed.

Lemma initial_symmetric (n : Z) : symmetric_neighbors (initial_neighbors n) n.
Proof. intros Xi Xj. rewrite !initial_arc. intuition congruence. Qed.

Lemma initial_well_formed (n : Z) :
  well_formed (initial_domains n) (initial_neighbors n) n.
Proof.
  split_and!.
  - intros r Hr. unfold initial_domains. rewrite lookup_dict_of_range.
    by rewrite decide_True.
  - intros r s (_ & ->)%lookup_dict_of_range_Some. apply NoDup_seqZ.
  - intros r Hr. unfold initial_neighbors. rewrite lookup_dict_of_range.
    by rewrite decide_True.
  - intros Xi Xj. rewrite initial_arc. tauto.
Qed.

(** ** AC3 returns *)

Lemma AC3_loop_total (fuel : nat) (domains neighbors : gmap Z (list Z)) (n : Z)
    (queue : list (Z * Z)) :
  well_formed domains neighbors n →
  (∀ a b, (a, b) ∈ queue → a ∈ range n ∧ b ∈ range n) →
  AC3_measure domains neighbors queue < fuel →
  ∃ r, AC3_loop fuel domains neighbors queue = Ok r.
Proof.
  intros (Hd & Hs & Hnb & Hin). revert domains queue Hd Hs.
  induction fuel as [|fuel IH]; intros domains [|[Xi Xj] queue] Hd Hs Hq Hm;
    simpl; eauto; [lia|].
  destruct (Hq Xi Xj) as [Hi Hj]; [by left|].
  destruct (Hd Xi Hi) as [di Hdi].
  destruct (revise_total domains Xi Xj di) as [[removed domains'] Hrev];
    [done|by eapply Hs|intros _; by apply Hd|].
  rewrite Hrev. simpl.
  pose proof (revise_shrinks _ _ _ _ _ Hrev) as Hsh.
  destruct removed.
  - destruct (shrinks_has_rows _ _ _ Hsh Hd Xi Hi) as [di' Hdi'].
    rewrite (getitem_Some _ _ _ Hdi'). simpl.
    destruct (length di' =? 0)%nat; [eauto|].
    destruct (Hnb Xi Hi) as [nbs Hnbs].
    rewrite (getitem_Some _ _ _ Hnbs). simpl.
    apply IH.
    + by eapply shrinks_has_rows.
    + by eapply shrinks_sets.
    + intros a b [?|Hab]%elem_of_app; [apply Hq; by right|].
      unfold requeue in Hab.
      apply list_elem_of_fmap in Hab as (Xk & ? & [_ Hk]%list_elem_of_filter).
      simplify_eq. split; [|done]. apply (Hin Xi). split; eauto.
    + pose proof (AC3_measure_requeue _ _ _ _ queue _ _ Hrev Hnbs). lia.
  - apply revise_unchanged in Hrev as ->. apply IH; [done..| |].
    + intros a b ?. apply Hq. by right.
    + unfold AC3_measure in *. simpl in Hm. lia.
Qed.

Lemma AC3_total (domains neighbors : gmap Z (list Z)) (n : Z) :
  well_formed domains neighbors n →
  ∃ b domains', AC3 domains neighbors n = Ok (b, domains').
Proof.
  intros Hwf. unfold AC3.
  destruct (AC3_init_total neighbors (range n) []) as [queue Hq].
  { apply Hwf. }
  rewrite Hq. simpl.
  destruct (AC3_loop_total (AC3_fuel domains neighbors queue)
              domains neighbors n queue) as [[b d'] Hr]; [done| |unfold AC3_fuel, AC3_measure; lia|eauto].
  intros a b Hab. apply (AC3_init_arcs _ _ _ Hq) in Hab as Harc.
  split; [apply Harc|]. destruct Hwf as (_ & _ & _ & Hin). by eapply Hin.
Qed.

(** Failure is returned exactly when a non-empty domain has been emptied. *)
Lemma AC3_run_wipeout (neighbors domains : gmap Z (list Z))
    (queue : list (Z * Z)) (b : bool) (domains' : gmap Z (list Z)) :
  AC3_run neighbors domains queue (b, domains') →
  if b then ∀ X s, domains !! X = Some s → s ≠ [] → domains' !! X ≠ Some []
  else ∃ X s, domains !! X = Some s ∧ s ≠ [] ∧ domains' !! X = Some [].
Proof.
  intros H. remember (b, domains') as r eqn:Hr. revert b domains' Hr.
  induction H as [d|d Xi Xj q d1 r Hrev _ IH|d Xi Xj q d1 Hrev Hempty
                 |d Xi Xj q d1 di nbs r Hrev Hdi Hne _ _ IH];
    intros b domains' ?; simplify_eq.
  - intros X s Hs ?. rewrite Hs. congruence.
  - apply revise_unchanged in Hrev as ->. by apply IH.
  - pose proof (revise_removed_size _ _ _ _ Hrev) as Hsz.
    apply revise_Ok in Hrev as (di & Hi & _ & -> & _).
    exists Xi, di. split_and!; [done| |done].
    intros ->. rewrite lookup_insert_eq in Hempty.
    pose proof (total_size_insert d Xi [] (revised Xi Xj (default [] (d !! Xj)) []) Hi).
    unfold revised in *. simpl in *. lia.
  - specialize (IH b domains' eq_refl).
    pose proof (revise_shrinks _ _ _ _ _ Hrev) as Hsh.
    apply revise_Ok in Hrev as (di0 & Hi & _ & -> & _).
    destruct b.
    + intros X s Hs Hnes. destruct (decide (X = Xi)) as [->|HX].
      * by eapply IH.
      * eapply IH; [|done]. by rewrite lookup_insert_ne.
    + destruct IH as (X & s & Hs & Hnes & Hfin).
      destruct (shrinks_lookup_inv _ _ _ _ Hsh Hs) as (s0 & Hs0 & Hsub).
      exists X, s0. split_and!; [done| |done].
      intros ->. apply sublist_nil_r in Hsub. done.
Qed.

(** C8: [AC3] never uses up the iterations its measure allows, and on a
    well-formed model it returns: failure with an emptied domain, or success
    at the end of a run of the loop that has exhausted the queue. *)
Theorem AC3_terminates (domains neighbors : gmap Z (list Z)) (n : Z) :
  AC3 domains neighbors n ≠ OutOfFuel ∧
  (well_formed domains neighbors n →
   ∃ b domains' queue,
     AC3 domains neighbors n = Ok (b, domains') ∧
     AC3_init neighbors (range n) [] = Ok queue ∧
     AC3_run neighbors domains queue (b, domains') ∧
     (b = false → ∃ Xi, domains' !! Xi = Some [])).
Proof.
  split; [apply AC3_not_OutOfFuel|]. intros Hwf.
  destruct (AC3_total _ _ _ Hwf) as (b & domains' & H).
  destruct (AC3_run_of_AC3 _ _ _ _ H) as (queue & Hq & Hrun).
  exists b, domains', queue. split_and!; [done..|].
  intros ->. apply AC3_run_wipeout in Hrun as (X & s & _ & _ & ?). eauto.
Qed.

Lemma AC3_terminates_witness :
  ∃ b domains' queue,
     AC3 (initial_domains 3) (initial_neighbors 3) 3 = Ok (b, domains') ∧
     AC3_init (initial_neighbors 3) (range 3) [] = Ok queue ∧
     AC3_run (initial_neighbors 3) (initial_domains 3) queue (b, domains') ∧
     (b = false → ∃ Xi, domains' !! Xi = Some []).
Proof.
  apply (AC3_terminates (initial_domains 3) (initial_neighbors 3) 3).
  apply initial_well_formed.
Defined.

(** ** AC3 on arc-consistent domains *)

Lemma revise_consistent (domains : gmap Z (list Z)) (Xi Xj : Z) :
  is_Some (domains !! Xi) → arc_consistent_on domains Xi Xj →
  revise domains Xi Xj = Ok (false, domains).
Proof.
  intros [di Hi] Hac. unfold revise. rewrite (getitem_Some _ _ _ Hi). simpl.
  destruct (revise_scan_total domains Xi Xj di []) as [out Hout].
  { destruct di as [|v di]; [done|]. intros _.
    destruct (Hac _ v Hi) as (dj & -> & _); [by left|done]. }
  rewrite Hout. simpl. apply revise_scan_Ok in Hout as [_ ->]. simpl.
  rewrite (proj2 (filter_nil_iff _ di)); [done|].
  intros v Hv Hc. destruct (Hac _ v Hi Hv) as (dj & Hj & Hsup).
  rewrite Hj in Hc. simpl in Hc.
  apply conflict_with_all_false in Hsup. congruence.
Qed.

Lemma AC3_loop_consistent (fuel : nat) (domains neighbors : gmap Z (list Z))
    (queue : list (Z * Z)) :
  length queue < fuel →
  (∀ a b, (a, b) ∈ queue → revise domains a b = Ok (false, domains)) →
  AC3_loop fuel domains neighbors queue = Ok (true, domains).
Proof.
  revert fuel. induction queue as [|[Xi Xj] queue IH]; intros fuel Hlen Hq.
  - by destruct fuel.
  - destruct fuel as [|fuel]; simpl in *; [lia|].
    rewrite (Hq Xi Xj) by (by left). simpl.
    apply IH; [lia|]. intros a b ?. apply Hq. by right.
Qed.

(** C7: on domains that are arc consistent already, [AC3] returns [True]
    and the domains are those it was given. *)
Theorem AC3_idempotent (domains neighbors : gmap Z (list Z)) (n : Z)
    (Hdomains : has_rows n domains) (Hneighbors : has_rows n neighbors)
    (Hconsistent : arc_consistent domains neighbors n) :
  AC3 domains neighbors n = Ok (true, domains).
Proof.
  unfold AC3.
  destruct (AC3_init_total neighbors (range n) [] Hneighbors) as [queue Hq].
  rewrite Hq. cbn [bind]. apply AC3_loop_consistent.
  - unfold AC3_fuel, AC3_measure. lia.
  - intros a b Hab%(AC3_init_arcs _ _ _ Hq).
    apply revise_consistent; [apply Hdomains, Hab|by apply Hconsistent].
Qed.

(** ** AC3 reaches arc consistency *)

Lemma supported_mono (Xi Xj : Z) (dj dj' : list Z) (v : Z) :
  dj' ⊆ dj → supported Xi Xj dj' v → supported Xi Xj dj v.
Proof. intros Hsub (w & Hw & Hc). exists w. split; [by apply Hsub|done]. Qed.

Lemma elem_of_revised (Xi Xj : Z) (dj di : list Z) (v : Z) :
  v ∈ revised Xi Xj dj di ↔ v ∈ di ∧ supported Xi Xj dj v.
Proof.
  unfold revised. rewrite list_elem_of_filter, conflict_with_all_false.
  tauto.
Qed.

Lemma revise_arc_consistent (domains : gmap Z (list Z)) (Xi Xj : Z) (b : bool)
    (domains' : gmap Z (list Z)) :
  revise domains Xi Xj = Ok (b, domains') → arc_consistent_on domains' Xi Xj.
Proof.
  intros (di & Hi & Hj & -> & _)%revise_Ok s v.
  rewrite lookup_insert_eq. intros [= <-] Hv.
  apply elem_of_revised in Hv as [Hv Hsup].
  destruct Hj as [dj Hj]; [by intros ->; apply elem_of_nil in Hv|].
  rewrite Hj in *. simpl in *. destruct (decide (Xi = Xj)) as [<-|Hne].
  - rewrite lookup_insert_eq. eexists. split; [done|]. simplify_eq.
    destruct Hsup as (w & Hw & Hc). exists w. split; [|done].
    apply elem_of_revised. split; [done|]. exists v.
    split; [done|]. by rewrite conflict_sym.
  - rewrite lookup_insert_ne by done. eauto.
Qed.

Lemma revise_preserves_arc (domains : gmap Z (list Z)) (Xi Xj : Z) (b : bool)
    (domains' : gmap Z (list Z)) (A B : Z) :
  revise domains Xi Xj = Ok (b, domains') → B ≠ Xi →
  arc_consistent_on domains A B → arc_consistent_on domains' A B.
Proof.
  intros (di & Hi & Hj & -> & _)%revise_Ok HB Hac s v Hs Hv.
  rewrite lookup_insert_ne by done.
  destruct (decide (Xi = A)) as [->|Hne].
  - rewrite lookup_insert_eq in Hs. simplify_eq.
    apply elem_of_revised in Hv as [Hv _]. by eapply Hac.
  - rewrite lookup_insert_ne in Hs by done. by eapply Hac.
Qed.

Lemma revise_preserves_reverse (domains : gmap Z (list Z)) (Xi Xj : Z)
    (b : bool) (domains' : gmap Z (list Z)) :
  revise domains Xi Xj = Ok (b, domains') →
  arc_consistent_on domains Xj Xi → arc_consistent_on domains' Xj Xi.
Proof.
  intros Hrev Hac. destruct (decide (Xi = Xj)) as [<-|Hne].
  { by eapply revise_arc_consistent. }
  apply revise_Ok in Hrev as (di & Hi & Hj & -> & _). intros s v Hs Hv.
  rewrite lookup_insert_ne in Hs by done. rewrite lookup_insert_eq.
  destruct (Hac _ _ Hs Hv) as (di' & Hi' & w & Hw & Hc). simplify_eq.
  eexists. split; [done|]. exists w. split; [|done].
  apply elem_of_revised. split; [done|]. rewrite Hs. simpl.
  exists v. split; [done|]. by rewrite conflict_sym.
Qed.

Lemma elem_of_requeue (nbs : list Z) (Xi Xj a b : Z) :
  (a, b) ∈ requeue nbs Xi Xj ↔ a ∈ nbs ∧ a ≠ Xj ∧ b = Xi.
Proof.
  unfold requeue. rewrite list_elem_of_fmap. split.
  - intros (Xk & ? & [? ?]%list_elem_of_filter). by simplify_eq.
  - intros (? & ? & ->). exists a. split; [done|]. by apply list_elem_of_filter.
Qed.

Lemma AC3_run_consistent (neighbors : gmap Z (list Z)) (n : Z)
    (domains : gmap Z (list Z)) (queue : list (Z * Z))
    (domains' : gmap Z (list Z)) :
  symmetric_neighbors neighbors n →
  AC3_run neighbors domains queue (true, domains') →
  AC3_invariant neighbors n domains queue →
  arc_consistent domains' neighbors n.
Proof.
  intros Hsym H. remember (true, domains') as r eqn:Hr. revert Hr.
  induction H as [d|d Xi Xj q d1 r Hrev _ IH|d Xi Xj q d1 Hrev Hempty
                 |d Xi Xj q d1 di nbs r Hrev Hdi Hne Hnbs _ IH];
    intros ? Hinv; simplify_eq.
  - intros Xi Xj Harc. destruct (Hinv _ _ Harc) as [?%elem_of_nil|?]; done.
  - apply IH; [done|]. intros A B Harc.
    destruct (Hinv _ _ Harc) as [[?|?]%elem_of_cons|Hac]; simplify_eq.
    + right. by eapply revise_arc_consistent.
    + by left.
    + right. by apply revise_unchanged in Hrev as ->.
  - apply IH; [done|]. intros A B Harc.
    destruct (Hinv _ _ Harc) as [[?|?]%elem_of_cons|Hac]; simplify_eq.
    + right. by eapply revise_arc_consistent.
    + left. apply elem_of_app. by left.
    + destruct (decide (B = Xi)) as [->|HB];
        [|right; by eapply revise_preserves_arc].
      destruct (decide (A = Xj)) as [->|HA];
        [right; by eapply revise_preserves_reverse|].
      left. apply elem_of_app. right. apply elem_of_requeue.
      destruct (Hsym _ _ Harc) as (_ & nbs' & ? & ?). by simplify_eq.
Qed.

Lemma revise_keeps_or_unsupported (domains : gmap Z (list Z)) (Xi Xj : Z)
    (b : bool) (domains' : gmap Z (list Z)) (X v : Z) (s : list Z) :
  revise domains Xi Xj = Ok (b, domains') →
  domains !! X = Some s → v ∈ s →
  (∃ s', domains' !! X = Some s' ∧ v ∈ s') ∨
  (X = Xi ∧ ∃ dj, domains !! Xj = Some dj ∧ ¬ supported Xi Xj dj v).
Proof.
  intros (di & Hi & Hj & -> & _)%revise_Ok Hs Hv.
  destruct (decide (Xi = X)) as [->|Hne].
  - simplify_eq. rewrite lookup_insert_eq.
    destruct Hj as [dj Hj]; [by intros ->; apply elem_of_nil in Hv|].
    rewrite Hj. simpl.
    destruct (decide (v ∈ revised X Xj dj di)) as [?|Hout]; [eauto|].
    right. split; [done|]. exists dj. split; [done|].
    intros Hsup. apply Hout. by apply elem_of_revised.
  - rewrite lookup_insert_ne by done. eauto.
Qed.

(** A member that is gone at the end has no support left on some arc. *)
Lemma AC3_run_removed (neighbors : gmap Z (list Z)) (n : Z)
    (domains : gmap Z (list Z)) (queue : list (Z * Z)) (b : bool)
    (domains' : gmap Z (list Z)) (X v : Z) (s : list Z) :
  symmetric_neighbors neighbors n →
  AC3_run neighbors domains queue (b, domains') →
  (∀ a b, (a, b) ∈ queue → arc neighbors n a b) →
  domains !! X = Some s → v ∈ s →
  (∀ s', domains' !! X = Some s' → v ∉ s') →
  ∃ Xj dj, arc neighbors n X Xj ∧ domains' !! Xj = Some dj ∧
           ¬ supported X Xj dj v.
Proof.
  intros Hsym H. remember (b, domains') as r eqn:Hr. revert s Hr.
  induction H as [d|d Xi Xj q d1 r Hrev _ IH|d Xi Xj q d1 Hrev Hempty
                 |d Xi Xj q d1 di nbs r Hrev Hdi Hne Hnbs Hrun IH];
    intros s ? Hq Hs Hv Hgone; simplify_eq.
  - by destruct (Hgone _ Hs).
  - apply revise_unchanged in Hrev as ->.
    eapply IH; [done| |done..]. intros ???. apply Hq. by right.
  - destruct (revise_keeps_or_unsupported _ _ _ _ _ _ _ _ Hrev Hs Hv)
      as [(s' & Hs' & Hv')|(-> & dj & Hj & Hns)].
    { by destruct (Hgone _ Hs'). }
    destruct (shrinks_lookup _ _ _ _ (revise_shrinks _ _ _ _ _ Hrev) Hj)
      as (dj' & Hj' & Hsub).
    exists Xj, dj'. split_and!; [apply Hq; by left|done|].
    intros Hsup. apply Hns. eapply supported_mono; [|done].
    by apply sublist_subseteq.
  - assert (arc neighbors n Xi Xj) as Harc by (apply Hq; by left).
    destruct (revise_keeps_or_unsupported _ _ _ _ _ _ _ _ Hrev Hs Hv)
      as [(s' & Hs' & Hv')|(-> & dj & Hj & Hns)].
    + eapply IH; [done| |done..].
      intros a c [?|(Ha & _ & ->)%elem_of_requeue]%elem_of_app;
        [apply Hq; by right|].
      apply Hsym. split; [apply Harc|eauto].
    + assert (shrinks d domains') as Hsh.
      { eapply shrinks_trans; [by eapply revise_shrinks|].
        by eapply AC3_run_shrinks. }
      destruct (shrinks_lookup _ _ _ _ Hsh Hj) as (dj' & Hj' & Hsub).
      exists Xj, dj'. split_and!; [done..|].
      intros Hsup. apply Hns. eapply supported_mono; [|done].
      by apply sublist_subseteq.
Qed.

Lemma AC3_true_arc_consistent (domains neighbors : gmap Z (list Z)) (n : Z)
    (domains' : gmap Z (list Z)) :
  symmetric_neighbors neighbors n →
  AC3 domains neighbors n = Ok (true, domains') →
  arc_consistent domains' neighbors n.
Proof.
  intros Hsym (queue & Hq & Hrun)%AC3_run_of_AC3.
  eapply AC3_run_consistent; [done..|].
  intros Xi Xj Harc. left. by apply (AC3_init_arcs _ _ _ Hq).
Qed.

(** C2: for a symmetric neighbour relation, the domains [AC3] returns with
    [True] are arc consistent; whatever it returns, a value that is gone
    from the domain of [Xi] has no support in the returned domain of some
    neighbour of [Xi]; and it returns [False] exactly when it has emptied a
    domain that was not empty. *)
Theorem AC3_arc_consistent (domains neighbors : gmap Z (list Z)) (n : Z)
    (b : bool) (domains' : gmap Z (list Z))
    (Hsym : symmetric_neighbors neighbors n)
    (Hcall : AC3 domains neighbors n = Ok (b, domains')) :
  (b = true → arc_consistent domains' neighbors n) ∧
  (∀ Xi di v, domains !! Xi = Some di → v ∈ di →
     (∀ di', domains' !! Xi = Some di' → v ∉ di') →
     ∃ Xj dj, arc neighbors n Xi Xj ∧ domains' !! Xj = Some dj ∧
              ¬ supported Xi Xj dj v) ∧
  (b = false ↔
     ∃ Xi di, domains !! Xi = Some di ∧ di ≠ [] ∧ domains' !! Xi = Some []).
Proof.
  split_and!.
  - intros ->. by eapply AC3_true_arc_consistent.
  - destruct (AC3_run_of_AC3 _ _ _ _ Hcall) as (queue & Hq & Hrun).
    intros Xi di v Hi Hv Hgone.
    eapply AC3_run_removed; [done..| |done|done|done].
    intros a c. apply (AC3_init_arcs _ _ _ Hq).
  - destruct (AC3_run_of_AC3 _ _ _ _ Hcall) as (queue & Hq & Hrun).
    apply AC3_run_wipeout in Hrun. destruct b; split; try done.
    intros (X & s & Hs & Hne & Hempty). by destruct (Hrun _ _ Hs Hne).
Qed.

Lemma AC3_arc_consistent_witness :
  (true = true → arc_consistent four_queens (initial_neighbors 4) 4) ∧
  (∀ Xi di v, first_row_assigned !! Xi = Some di → v ∈ di →
     (∀ di', four_queens !! Xi = Some di' → v ∉ di') →
     ∃ Xj dj, arc (initial_neighbors 4) 4 Xi Xj ∧
              four_queens !! Xj = Some dj ∧ ¬ supported Xi Xj dj v) ∧
  (true = false ↔
     ∃ Xi di, first_row_assigned !! Xi = Some di ∧ di ≠ [] ∧
              four_queens !! Xi = Some []).
Proof.
  apply (AC3_arc_consistent first_row_assigned (initial_neighbors 4) 4 true
           four_queens (initial_symmetric 4)).
  vm_compute. reflexivity.
Defined.

(** ** list.sort *)

Section sorting.
Context {A K : Type} `{EqDecision K} (kltb : K → K → bool).
Hypothesis kltb_asym : ∀ a b, kltb a b = true → kltb b a = false.
Hypothesis kltb_trans : ∀ a b c,
  kltb b a = false → kltb c b = false → kltb c a = false.

Lemma sort_insert_perm (kx : K) (x : A) (s : list (K * A)) :
  sort_insert kltb kx x s ≡ₚ (kx, x) :: s.
Proof.
  induction s as [|[ky y] s IH]; simpl; [done|].
  destruct (kltb ky kx); [|done]. rewrite IH. apply Permutation_swap.
Qed.

Lemma sort_keyed_perm (l : list (K * A)) : sort_keyed kltb l ≡ₚ l.
Proof.
  induction l as [|[kx x] l IH]; simpl; [done|].
  by rewrite sort_insert_perm, IH.
Qed.

Lemma sort_insert_sorted (kx : K) (x : A) (s : list (K * A)) :
  StronglySorted (λ p q, kltb q.1 p.1 = false) s →
  StronglySorted (λ p q, kltb q.1 p.1 = false) (sort_insert kltb kx x s).
Proof.
  induction s as [|[ky y] s IH]; intros Hs; simpl.
  - by repeat constructor.
  - apply StronglySorted_inv in Hs as [Hs Hall].
    destruct (kltb ky kx) eqn:Hlt.
    + constructor; [by apply IH|].
      rewrite sort_insert_perm. constructor; [by apply kltb_asym|done].
    + constructor; [by constructor|]. constructor; [done|].
      eapply Forall_impl; [done|]. intros [kz z] Hz. simpl in *.
      by eapply kltb_trans.
Qed.

Lemma sort_keyed_sorted (l : list (K * A)) :
  StronglySorted (λ p q, kltb q.1 p.1 = false) (sort_keyed kltb l).
Proof.
  induction l as [|[kx x] l IH]; simpl; [constructor|].
  by apply sort_insert_sorted.
Qed.

Lemma kltb_irrefl (a : K) : kltb a a = false.
Proof. destruct (kltb a a) eqn:Ha; [|done]. by rewrite <- Ha, kltb_asym. Qed.

Lemma sort_insert_stable (kx k : K) (x : A) (s : list (K * A)) :
  filter (λ p, p.1 = k) (sort_insert kltb kx x s)
  = filter (λ p, p.1 = k) ((kx, x) :: s).
Proof.
  induction s as [|[ky y] s IH]; simpl; [done|].
  destruct (kltb ky kx) eqn:Hlt; [|done].
  assert (ky ≠ kx) as Hne.
  { intros ->. by rewrite kltb_irrefl in Hlt. }
  rewrite (filter_cons _ (ky, y)), IH, !filter_cons. simpl.
  destruct (decide (ky = k)), (decide (kx = k)); congruence.
Qed.

Lemma sort_keyed_stable (k : K) (l : list (K * A)) :
  filter (λ p, p.1 = k) (sort_keyed kltb l) = filter (λ p, p.1 = k) l.
Proof.
  induction l as [|[kx x] l IH]; simpl; [done|].
  by rewrite sort_insert_stable, !filter_cons, IH.
Qed.

Lemma sorted_by_stable_sort (g : A → K) (l : list A) :
  stable_sort_of kltb g l (sorted_by kltb g l).
Proof.
  unfold sorted_by.
  assert (∀ l' : list (K * A), Forall (λ p, p.1 = g p.2) l' →
    ∀ k, filter (λ x, g x = k) l'.*2 = (filter (λ p, p.1 = k) l').*2) as Hfil.
  { intros l' Hl' k. induction Hl' as [|[ky y] l' Hy _ IH]; [done|].
    csimpl in *. rewrite !filter_cons. csimpl. subst ky.
    destruct (decide (g y = k)); csimpl; by rewrite IH. }
  assert (Forall (λ p : K * A, p.1 = g p.2) ((λ x, (g x, x)) <$> l)) as Hl.
  { apply Forall_fmap, Forall_true. done. }
  assert (Forall (λ p : K * A, p.1 = g p.2)
            (sort_keyed kltb ((λ x, (g x, x)) <$> l))) as Hs.
  { by rewrite sort_keyed_perm. }
  split_and!.
  - rewrite sort_keyed_perm. rewrite <- list_fmap_compose.
    by rewrite list_fmap_id.
  - pose proof (sort_keyed_sorted ((λ x, (g x, x)) <$> l)) as Hsorted.
    induction Hsorted as [|[ky y] s _ IH Hall]; [constructor|].
    apply Forall_cons in Hs as [Hy Hs]. simpl in *. subst ky.
    constructor; [by apply IH|].
    apply Forall_fmap. rewrite Forall_forall in Hall, Hs |- *.
    intros [kz z] Hz. simpl. specialize (Hall _ Hz). specialize (Hs _ Hz).
    simpl in *. by subst kz.
  - intros k. rewrite (Hfil _ Hs), sort_keyed_stable, <- (Hfil _ Hl).
    rewrite <- list_fmap_compose. by rewrite list_fmap_id.
Qed.

Lemma sort_keys_Ok (f : A → res K) (g : A → K) (l : list A)
    (keyed : list (K * A)) :
  (∀ x k, f x = Ok k → k = g x) →
  sort_keys f l = Ok keyed →
  (∀ x, x ∈ l → f x = Ok (g x)) ∧ keyed = (λ x, (g x, x)) <$> l.
Proof.
  intros Hg. revert keyed. induction l as [|x l IH]; intros keyed H; simpl in H.
  - simplify_eq. split; [by intros ? ?%elem_of_nil|done].
  - inv_bind H. inv_bind H. simplify_eq.
    apply Hg in Ha as Hk. subst a.
    destruct (IH _ Ha0) as [Hl ->]. split; [|done].
    intros y [->|?]%elem_of_cons; auto.
Qed.

Lemma list_sort_Ok (f : A → res K) (g : A → K) (l out : list A) :
  (∀ x k, f x = Ok k → k = g x) →
  list_sort kltb f l = Ok out →
  (∀ x, x ∈ l → f x = Ok (g x)) ∧ out = sorted_by kltb g l.
Proof.
  intros Hg H. unfold list_sort in H. inv_bind H. simplify_eq.
  destruct (sort_keys_Ok _ _ _ _ Hg Ha) as [Hl ->]. done.
Qed.

Lemma list_sort_total (f : A → res K) (g : A → K) (l : list A) :
  (∀ x, x ∈ l → f x = Ok (g x)) →
  list_sort kltb f l = Ok (sorted_by kltb g l).
Proof.
  intros Hl. unfold list_sort.
  assert (sort_keys f l = Ok ((λ x, (g x, x)) <$> l)) as ->; [|done].
  induction l as [|x l IH]; [done|]. simpl.
  rewrite Hl by (by left). simpl.
  rewrite IH; [done|]. intros y ?. apply Hl. by right.
Qed.
End sorting.

Lemma Zltb_asym (a b : Z) : (a <? b)%Z = true → (b <? a)%Z = false.
Proof. rewrite Z.ltb_lt, Z.ltb_ge. lia. Qed.

Lemma Zltb_trans (a b c : Z) :
  (b <? a)%Z = false → (c <? b)%Z = false → (c <? a)%Z = false.
Proof. rewrite !Z.ltb_ge. lia. Qed.

Lemma tuple_ltb_true (a b : Z * Z) :
  tuple_ltb a b = true ↔ (a.1 < b.1 ∨ (a.1 = b.1 ∧ a.2 < b.2))%Z.
Proof.
  unfold tuple_ltb.
  rewrite orb_true_iff, andb_true_iff, !Z.ltb_lt, Z.eqb_eq. done.
Qed.

Lemma tuple_ltb_false (a b : Z * Z) :
  tuple_ltb a b = false ↔ (b.1 < a.1 ∨ (a.1 = b.1 ∧ b.2 ≤ a.2))%Z.
Proof.
  rewrite <- not_true_iff_false, tuple_ltb_true. lia.
Qed.

Lemma tuple_ltb_asym (a b : Z * Z) :
  tuple_ltb a b = true → tuple_ltb b a = false.
Proof. rewrite tuple_ltb_true, tuple_ltb_false. lia. Qed.

Lemma tuple_ltb_trans (a b c : Z * Z) :
  tuple_ltb b a = false → tuple_ltb c b = false → tuple_ltb c a = false.
Proof. rewrite !tuple_ltb_false. lia. Qed.

(** ** The heuristics *)

Lemma mrv_key_Ok (domains neighbors : gmap Z (list Z)) (r : Z) (k : Z * Z) :
  mrv_key domains neighbors r = Ok k →
  k = mrv_key_of domains neighbors r ∧
  is_Some (domains !! r) ∧ is_Some (neighbors !! r).
Proof.
  unfold mrv_key, mrv_key_of. intros H.
  inv_bind H. inv_bind H. apply getitem_Ok in Ha, Ha0. simplify_eq.
  by rewrite Ha, Ha0.
Qed.

Lemma select_unassigned_row_Ok (domains : gmap Z (list Z))
    (unassigned_rows : list Z) (neighbors : gmap Z (list Z)) (r : Z)
    (post : gmap Z (list Z) * list Z * gmap Z (list Z)) :
  select_unassigned_row domains unassigned_rows neighbors = Ok (r, post) →
  let sorted :=
    sorted_by tuple_ltb (mrv_key_of domains neighbors) unassigned_rows in
  post = (domains, sorted, neighbors) ∧ head sorted = Some r ∧
  ∀ x, x ∈ unassigned_rows → is_Some (domains !! x) ∧ is_Some (neighbors !! x).
Proof.
  unfold select_unassigned_row. intros H. inv_bind H.
  apply (list_sort_Ok _ _ (mrv_key_of domains neighbors)) in Ha as [Hkeys ->].
  - destruct (sorted_by _ _ _) as [|r' sorted] eqn:Hsorted; [done|].
    simplify_eq. split_and!; [done..|].
    intros x Hx. by destruct (mrv_key_Ok _ _ _ _ (Hkeys x Hx)) as [_ ?].
  - intros x k Hk. by apply mrv_key_Ok in Hk as [? _].
Qed.

Lemma cost_vals_count (row col nb : Z) (vals : list Z) (cost : Z) :
  cost_vals row col nb vals cost =
  (cost + Z.of_nat (length (filter (λ p, conflict row col p.1 p.2 = true)
                              ((λ val, (nb, val)) <$> vals))))%Z.
Proof.
  revert cost. induction vals as [|val vals IH]; intros cost; csimpl; [lia|].
  rewrite IH, filter_cons. simpl.
  destruct (conflict row col nb val); simpl; lia.
Qed.

Lemma cost_nbs_Ok (domains : gmap Z (list Z)) (row col : Z) (nbs : list Z)
    (cost cost' : Z) :
  cost_nbs domains row col nbs cost = Ok cost' →
  cost' = (cost + Z.of_nat (length (conflicting_pairs domains nbs row col)))%Z.
Proof.
  unfold conflicting_pairs. revert cost.
  induction nbs as [|nb nbs IH]; intros cost H; simpl in H.
  - simplify_eq. csimpl. lia.
  - inv_bind H. apply getitem_Ok in Ha. apply IH in H as ->.
    csimpl. rewrite Ha, filter_app, length_app, cost_vals_count. simpl. lia.
Qed.

Lemma constraining_cost_Ok (domains neighbors : gmap Z (list Z))
    (row col cost : Z) :
  constraining_cost domains neighbors row col = Ok cost →
  cost = lcv_cost domains neighbors row col.
Proof.
  unfold constraining_cost, lcv_cost. intros H. inv_bind H.
  apply getitem_Ok in Ha. rewrite Ha. simpl.
  apply cost_nbs_Ok in H. lia.
Qed.

Lemma order_domain_values_Ok (row : Z) (domains neighbors : gmap Z (list Z))
    (vs : list Z) (post : gmap Z (list Z) * gmap Z (list Z)) :
  order_domain_values row domains neighbors = Ok (vs, post) →
  post = (domains, neighbors) ∧
  ∃ values, domains !! row = Some values ∧
    vs = sorted_by Z.ltb (lcv_cost domains neighbors row) values ∧
    ∀ v, v ∈ values →
      constraining_cost domains neighbors row v
      = Ok (lcv_cost domains neighbors row v).
Proof.
  unfold order_domain_values. intros H. inv_bind H. inv_bind H.
  apply getitem_Ok in Ha. simplify_eq. split; [done|]. exists a.
  apply (list_sort_Ok _ _ (lcv_cost domains neighbors row)) in Ha0
    as [Hkeys ->]; [done|].
  intros v k. apply constraining_cost_Ok.
Qed.

(** C6: [order_domain_values] returns the values of [domains[row]], each
    with the cost of the specification as its key, in ascending order of
    cost, values of equal cost in the order the domain iterates them. *)
Theorem order_domain_values_lcv (row : Z) (domains neighbors : gmap Z (list Z))
    (vs : list Z) (post : gmap Z (list Z) * gmap Z (list Z))
    (Hcall : order_domain_values row domains neighbors = Ok (vs, post)) :
  ∃ values, domains !! row = Some values ∧
    (∀ v, v ∈ values →
       constraining_cost domains neighbors row v
       = Ok (lcv_cost domains neighbors row v)) ∧
    stable_sort_of Z.ltb (lcv_cost domains neighbors row) values vs.
Proof.
  apply order_domain_values_Ok in Hcall as (_ & values & Hrow & -> & Hcost).
  exists values. split_and!; [done..|].
  apply sorted_by_stable_sort; [apply Zltb_asym|apply Zltb_trans].
Qed.

Lemma order_domain_values_lcv_witness :
  ∃ values, example_domains !! 0%Z = Some values ∧
    (∀ v, v ∈ values →
       constraining_cost example_domains (initial_neighbors 3) 0 v
       = Ok (lcv_cost example_domains (initial_neighbors 3) 0 v)) ∧
    stable_sort_of Z.ltb (lcv_cost example_domains (initial_neighbors 3) 0)
      values [2; 0]%Z.
Proof.
  apply (order_domain_values_lcv 0 example_domains (initial_neighbors 3)
           [2; 0]%Z (example_domains, initial_neighbors 3)).
  vm_compute. reflexivity.
Defined.

(** C9 as stated fails: [select_unassigned_row] leaves the list it is
    passed in another order.  With two columns left for row 0 and one for
    rows 1 and 2, the list [[0; 1; 2]] is [[1; 2; 0]] after the call. *)
Lemma select_unassigned_row_sorts_in_place :
  select_unassigned_row example_domains [0; 1; 2]%Z (initial_neighbors 3)
  = Ok (1%Z, (example_domains, [1; 2; 0]%Z, initial_neighbors 3)) ∧
  [1; 2; 0]%Z ≠ [0; 1; 2]%Z.
Proof. split; [vm_compute; reflexivity|done]. Qed.

(** C9, amended: neither heuristic changes the domains or the neighbour
    relation (the assignment is not passed to them); [order_domain_values]
    changes nothing it is passed, and [select_unassigned_row] leaves
    [unassigned_rows] stably sorted by domain size, then by decreasing
    number of neighbours, and returns its first row. *)
Theorem heuristics_effects (domains : gmap Z (list Z))
    (unassigned_rows : list Z) (neighbors : gmap Z (list Z)) (row : Z) :
  (∀ r post,
     select_unassigned_row domains unassigned_rows neighbors = Ok (r, post) →
     ∃ sorted, post = (domains, sorted, neighbors) ∧ head sorted = Some r ∧
       stable_sort_of tuple_ltb (mrv_key_of domains neighbors)
         unassigned_rows sorted) ∧
  (∀ vs post,
     order_domain_values row domains neighbors = Ok (vs, post) →
     post = (domains, neighbors)).
Proof.
  split.
  - intros r post (-> & Hhead & _)%select_unassigned_row_Ok.
    eexists. split_and!; [done..|].
    apply sorted_by_stable_sort; [apply tuple_ltb_asym|apply tuple_ltb_trans].
  - by intros vs post [-> _]%order_domain_values_Ok.
Qed.

Lemma heuristics_effects_witness :
  (∃ sorted,
     (example_domains, [1; 2; 0]%Z, initial_neighbors 3)
     = (example_domains, sorted, initial_neighbors 3) ∧
     head sorted = Some 1%Z ∧
     stable_sort_of tuple_ltb
       (mrv_key_of example_domains (initial_neighbors 3)) [0; 1; 2]%Z sorted) ∧
  (example_domains, initial_neighbors 3)
  = (example_domains, initial_neighbors 3).
Proof.
  destruct (heuristics_effects example_domains [0; 1; 2]%Z
              (initial_neighbors 3) 0) as [Hsel Hord].
  split.
  - apply (Hsel 1%Z). vm_compute. reflexivity.
  - apply (Hord [2; 0]%Z). vm_compute. reflexivity.
Defined.

(** ** The helpers of the search driver *)

Lemma unassigned_Ok (assignment : gmap Z (option Z)) (rs out : list Z) :
  unassigned assignment rs = Ok out →
  (∀ r, r ∈ rs → is_Some (assignment !! r)) ∧
  out = filter (λ r, assignment !! r = Some None) rs.
Proof.
  revert out. induction rs as [|r rs IH]; intros out H; simpl in H.
  - simplify_eq. split; [by intros ? ?%elem_of_nil|done].
  - inv_bind H. inv_bind H. apply getitem_Ok in Ha. simplify_eq.
    destruct (IH _ Ha0) as [Hrs ->]. split.
    + intros k [->|?]%elem_of_cons; [by rewrite Ha|auto].
    + rewrite filter_cons, Ha. by destruct a.
Qed.

Lemma unassigned_total (assignment : gmap Z (option Z)) (rs : list Z) :
  (∀ r, r ∈ rs → is_Some (assignment !! r)) →
  unassigned assignment rs = Ok (filter (λ r, assignment !! r = Some None) rs).
Proof.
  induction rs as [|r rs IH]; intros Hrs; simpl; [done|].
  destruct (Hrs r) as [a Ha]; [by left|].
  rewrite (getitem_Some _ _ _ Ha). simpl.
  rewrite IH by (intros k ?; apply Hrs; by right). simpl.
  rewrite filter_cons, Ha. by destruct a.
Qed.

Lemma any_conflict_false (assignment : gmap Z (option Z)) (row col : Z)
    (rs : list Z) :
  any_conflict assignment row col rs = Ok false →
  ∀ r2 c2, r2 ∈ rs → assignment !! r2 = Some (Some c2) →
    conflict row col r2 c2 = false.
Proof.
  induction rs as [|r rs IH]; intros H r2 c2 Hr2 Hc2; simpl in H.
  - by apply elem_of_nil in Hr2.
  - inv_bind H. apply getitem_Ok in Ha.
    apply elem_of_cons in Hr2 as [->|Hr2].
    + simplify_eq. by destruct (conflict row col r c2).
    + destruct a as [c|]; [|by eapply IH].
      destruct (conflict row col r c); [done|by eapply IH].
Qed.

Lemma any_conflict_total (assignment : gmap Z (option Z)) (row col : Z)
    (rs : list Z) :
  (∀ r, r ∈ rs → is_Some (assignment !! r)) →
  ∃ b, any_conflict assignment row col rs = Ok b.
Proof.
  induction rs as [|r rs IH]; intros Hrs; simpl; [eauto|].
  destruct (Hrs r) as [a Ha]; [by left|].
  rewrite (getitem_Some _ _ _ Ha). simpl.
  assert (∃ b, any_conflict assignment row col rs = Ok b) as Hrest.
  { apply IH. intros k ?. apply Hrs. by right. }
  destruct a as [c|]; [|done]. destruct (conflict row col r c); eauto.
Qed.

Lemma snapshot_Ok (copy : Z → list Z → list Z) (domains : gmap Z (list Z))
    (rs : list Z) (saved saved' : gmap Z (list Z)) :
  snapshot copy domains rs saved = Ok saved' →
  ∀ r, saved' !! r
       = if decide (r ∈ rs) then copy r <$> domains !! r else saved !! r.
Proof.
  revert saved. induction rs as [|k rs IH]; intros saved H r; simpl in H.
  - simplify_eq. rewrite decide_False; [done|apply not_elem_of_nil].
  - inv_bind H. apply getitem_Ok in Ha. rewrite (IH _ H).
    destruct (decide (r ∈ rs)) as [Hin|Hnin].
    + rewrite decide_True; [done|by right].
    + destruct (decide (k = r)) as [->|Hne].
      * rewrite lookup_insert_eq, decide_True, Ha; [done|by left].
      * rewrite lookup_insert_ne by done.
        rewrite decide_False; [done|]. by intros [->|?]%elem_of_cons.
Qed.

Lemma snapshot_keys (copy : Z → list Z → list Z) (domains : gmap Z (list Z))
    (rs : list Z) (saved saved' : gmap Z (list Z)) :
  snapshot copy domains rs saved = Ok saved' →
  ∀ r, r ∈ rs → is_Some (domains !! r).
Proof.
  revert saved. induction rs as [|k rs IH]; intros saved H r Hr; simpl in H.
  - by apply elem_of_nil in Hr.
  - inv_bind H. apply getitem_Ok in Ha.
    apply elem_of_cons in Hr as [->|Hr]; [by rewrite Ha|by eapply IH].
Qed.

Lemma snapshot_total (copy : Z → list Z → list Z) (domains : gmap Z (list Z))
    (rs : list Z) (saved : gmap Z (list Z)) :
  (∀ r, r ∈ rs → is_Some (domains !! r)) →
  ∃ saved', snapshot copy domains rs saved = Ok saved'.
Proof.
  revert saved. induction rs as [|k rs IH]; intros saved Hrs; simpl; [eauto|].
  destruct (Hrs k) as [s Hs]; [by left|].
  rewrite (getitem_Some _ _ _ Hs). simpl.
  apply IH. intros r ?. apply Hrs. by right.
Qed.

Lemma restore_Ok (domains saved : gmap Z (list Z)) (rs : list Z)
    (domains' : gmap Z (list Z)) :
  restore domains saved rs = Ok domains' →
  ∀ r, domains' !! r = if decide (r ∈ rs) then saved !! r else domains !! r.
Proof.
  revert domains. induction rs as [|k rs IH]; intros domains H r; simpl in H.
  - simplify_eq. rewrite decide_False; [done|apply not_elem_of_nil].
  - inv_bind H. apply getitem_Ok in Ha. rewrite (IH _ H).
    destruct (decide (r ∈ rs)) as [Hin|Hnin].
    + rewrite decide_True; [done|by right].
    + destruct (decide (k = r)) as [->|Hne].
      * rewrite lookup_insert_eq, decide_True; [done|by left].
      * rewrite lookup_insert_ne by done.
        rewrite decide_False; [done|]. by intros [->|?]%elem_of_cons.
Qed.

Lemma restore_total (domains saved : gmap Z (list Z)) (rs : list Z) :
  (∀ r, r ∈ rs → is_Some (saved !! r)) →
  ∃ domains', restore domains saved rs = Ok domains'.
Proof.
  revert domains. induction rs as [|k rs IH]; intros domains Hrs; simpl;
    [eauto|].
  destruct (Hrs k) as [s Hs]; [by left|].
  rewrite (getitem_Some _ _ _ Hs). simpl.
  apply IH. intros r ?. apply Hrs. by right.
Qed.

(** ** Dicts of sets with the same members *)

Lemma same_members_refl (o : option (list Z)) : same_members o o.
Proof. destruct o; simpl; done. Qed.

Lemma same_members_sym (o o' : option (list Z)) :
  same_members o o' → same_members o' o.
Proof. destruct o, o'; simpl; [by symmetry|done..]. Qed.

Lemma same_members_trans (o1 o2 o3 : option (list Z)) :
  same_members o1 o2 → same_members o2 o3 → same_members o1 o3.
Proof.
  destruct o1, o2, o3; simpl; try done. intros H1 H2. by rewrite H2.
Qed.

Lemma same_members_Some (o o' : option (list Z)) (s : list Z) :
  same_members o o' → o = Some s → ∃ s', o' = Some s' ∧ s' ≡ₚ s.
Proof. intros H ->. destruct o' as [s'|]; simpl in H; [eauto|done]. Qed.

Lemma same_sets_refl (d : gmap Z (list Z)) : same_sets d d.
Proof. intros r. apply same_members_refl. Qed.

Lemma same_sets_sym (d d' : gmap Z (list Z)) : same_sets d d' → same_sets d' d.
Proof. intros H r. apply same_members_sym, H. Qed.

Lemma same_sets_trans (d1 d2 d3 : gmap Z (list Z)) :
  same_sets d1 d2 → same_sets d2 d3 → same_sets d1 d3.
Proof. intros H1 H2 r. eapply same_members_trans; [apply H1|apply H2]. Qed.

Lemma same_sets_lookup (d d' : gmap Z (list Z)) (r : Z) (s : list Z) :
  same_sets d d' → d !! r = Some s → ∃ s', d' !! r = Some s' ∧ s' ≡ₚ s.
Proof. intros H. apply same_members_Some, H. Qed.

Lemma same_sets_lookup_inv (d d' : gmap Z (list Z)) (r : Z) (s' : list Z) :
  same_sets d d' → d' !! r = Some s' → ∃ s, d !! r = Some s ∧ s' ≡ₚ s.
Proof.
  intros H%same_sets_sym Hs'.
  destruct (same_sets_lookup _ _ _ _ H Hs') as (s & ? & Hp).
  exists s. split; [done|by symmetry].
Qed.

Lemma same_sets_well_formed (d d' neighbors : gmap Z (list Z)) (n : Z) :
  same_sets d d' → well_formed d neighbors n → well_formed d' neighbors n.
Proof.
  intros H (Hd & Hs & Hnb & Hin). split_and!; [| |done..].
  - intros r [s Hr]%Hd.
    destruct (same_sets_lookup _ _ _ _ H Hr) as (s' & -> & _). eauto.
  - intros r s' (s & Hr & Hp)%(same_sets_lookup_inv _ _ _ _ H).
    rewrite Hp. by eapply Hs.
Qed.

Lemma same_sets_columns_on_board (n : Z) (d d' : gmap Z (list Z)) :
  same_sets d d' → columns_on_board n d → columns_on_board n d'.
Proof.
  intros H Hd r s' c (s & Hr & Hp)%(same_sets_lookup_inv _ _ _ _ H) Hc.
  eapply Hd; [done|]. by rewrite <- Hp.
Qed.

Lemma same_sets_search_invariant (n : Z) (d d' : gmap Z (list Z))
    (a : gmap Z (option Z)) :
  same_sets d d' → search_invariant n d a → search_invariant n d' a.
Proof.
  intros H (Hd & Ha & Hfree). split_and!; [|done..].
  by eapply same_sets_columns_on_board.
Qed.

Lemma same_order_copies : copies same_order.
Proof. by intros a r s. Qed.

Lemma reversed_copies : copies reversed.
Proof. intros a r s. apply reverse_Permutation. Qed.

(** Restoring from the snapshot of [domains] installs the sets of the
    snapshot and so gives the sets of [domains] back, whatever has happened
    to the rows of the board since. *)
Lemma restore_snapshot (copy : Z → list Z → list Z)
    (domains saved changed restored : gmap Z (list Z)) (n : Z) :
  (∀ r s, copy r s ≡ₚ s) →
  snapshot copy domains (range n) ∅ = Ok saved →
  (∀ r, r ∉ range n → same_members (domains !! r) (changed !! r)) →
  restore changed saved (range n) = Ok restored →
  same_sets domains restored ∧
  ∀ r, r ∈ range n → restored !! r = saved !! r.
Proof.
  intros Hcopy Hsaved Hframe Hrestored. split.
  - intros r.
    rewrite (restore_Ok _ _ _ _ Hrestored), (snapshot_Ok _ _ _ _ _ Hsaved).
    destruct (decide (r ∈ range n)); [|auto].
    destruct (domains !! r); simpl; [apply Hcopy|done].
  - intros r Hr. by rewrite (restore_Ok _ _ _ _ Hrestored), decide_True.
Qed.

(** [AC3] leaves the keys that are no rows of the board alone. *)
Lemma AC3_run_frame (neighbors : gmap Z (list Z)) (n : Z)
    (domains : gmap Z (list Z)) (queue : list (Z * Z)) (b : bool)
    (domains' : gmap Z (list Z)) (r : Z) :
  neighbors_in_range neighbors n →
  AC3_run neighbors domains queue (b, domains') →
  (∀ Xi Xj, (Xi, Xj) ∈ queue → Xi ∈ range n) →
  r ∉ range n → domains' !! r = domains !! r.
Proof.
  intros Hin H. remember (b, domains') as res eqn:Hres. revert Hres.
  induction H as [d|d Xi Xj q d1 res Hrev _ IH|d Xi Xj q d1 Hrev Hempty
                 |d Xi Xj q d1 di nbs res Hrev Hdi Hne Hnbs Hrun IH];
    intros ? Hq Hr; simplify_eq.
  - done.
  - apply revise_unchanged in Hrev as ->.
    apply IH; [done| |done]. intros ???. eapply Hq. by right.
  - apply revise_Ok in Hrev as (di & _ & _ & -> & _).
    apply lookup_insert_ne. intros ->. apply Hr. eapply Hq. by left.
  - assert (Xi ∈ range n) as HXi by (eapply Hq; by left).
    rewrite IH; [|done| |done].
    + apply revise_Ok in Hrev as (di0 & _ & _ & -> & _).
      apply lookup_insert_ne. by intros ->.
    + intros a c [?|(Ha & _ & ->)%elem_of_requeue]%elem_of_app;
        [eapply Hq; by right|].
      apply (Hin Xi). split; eauto.
Qed.

Lemma AC3_frame (domains neighbors : gmap Z (list Z)) (n : Z) (b : bool)
    (domains' : gmap Z (list Z)) (r : Z) :
  neighbors_in_range neighbors n →
  AC3 domains neighbors n = Ok (b, domains') →
  r ∉ range n → domains' !! r = domains !! r.
Proof.
  intros Hin (queue & Hq & Hrun)%AC3_run_of_AC3 Hr.
  eapply AC3_run_frame; [done..| |done].
  intros Xi Xj Harc%(AC3_init_arcs _ _ _ Hq). apply Harc.
Qed.

(** What a failed tentative assignment leaves: from the domains [pruned]
    that [AC3] returned, or the sets of these that the nested search
    returned, the restore gives the sets of [domains] back. *)
Lemma restore_after_failure (copy : Z → list Z → list Z)
    (domains neighbors saved pruned failed restored : gmap Z (list Z))
    (n row col : Z) (consistent : bool) :
  (∀ r s, copy r s ≡ₚ s) →
  neighbors_in_range neighbors n → row ∈ range n →
  snapshot copy domains (range n) ∅ = Ok saved →
  AC3 (<[row := [col]]> domains) neighbors n = Ok (consistent, pruned) →
  same_sets pruned failed →
  restore failed saved (range n) = Ok restored →
  same_sets domains restored.
Proof.
  intros Hcopy Hin Hrow Hsaved Hac3 Hfailed Hrestored.
  eapply restore_snapshot; [done..| |done].
  intros r Hr. eapply same_members_trans; [|apply Hfailed].
  rewrite (AC3_frame _ _ _ _ _ _ Hin Hac3 Hr).
  rewrite lookup_insert_ne by (by intros ->). apply same_members_refl.
Qed.

(** ** The search driver *)

Lemma sorted_by_perm {A K : Type} (kltb : K → K → bool) (g : A → K)
    (l : list A) :
  sorted_by kltb g l ≡ₚ l.
Proof.
  unfold sorted_by. rewrite sort_keyed_perm, <- list_fmap_compose.
  by rewrite list_fmap_id.
Qed.

Lemma columns_on_board_shrinks (n : Z) (d d' : gmap Z (list Z)) :
  shrinks d d' → columns_on_board n d → columns_on_board n d'.
Proof.
  intros Hsh Hd r s' c (s & Hs & Hsub)%(shrinks_lookup_inv _ _ _ _ Hsh) Hc.
  eapply Hd; [done|]. by eapply elem_of_sublist.
Qed.

(** The state after the tentative assignment of [col] to an unassigned
    [row] that passed the quick check. *)
Lemma search_invariant_assign (n row col : Z) (domains : gmap Z (list Z))
    (assignment : gmap Z (option Z)) :
  search_invariant n domains assignment →
  row ∈ range n → col ∈ range n →
  any_conflict assignment row col (range n) = Ok false →
  search_invariant n (<[row := [col]]> domains) (<[row := Some col]> assignment).
Proof.
  intros (Hd & [Hkeys Hcols] & Hfree) Hrow Hcol Hquick. split_and!.
  - intros r s c Hs Hc. destruct (decide (row = r)) as [<-|Hne].
    + rewrite lookup_insert_eq in Hs. simplify_eq.
      by apply list_elem_of_singleton in Hc as ->.
    + rewrite lookup_insert_ne in Hs by done. by eapply Hd.
  - split.
    + intros r. destruct (decide (row = r)) as [<-|Hne]; [done|].
      rewrite lookup_insert_ne by done. apply Hkeys.
    + intros r c. destruct (decide (row = r)) as [<-|Hne].
      * rewrite lookup_insert_eq. by intros [= <-].
      * rewrite lookup_insert_ne by done. apply Hcols.
  - pose proof (any_conflict_false _ _ _ _ Hquick) as Hq.
    intros r1 r2 c1 c2 Hne H1 H2.
    destruct (decide (row = r1)) as [<-|Hne1];
      destruct (decide (row = r2)) as [<-|Hne2]; [done|..].
    + rewrite lookup_insert_eq in H1. rewrite lookup_insert_ne in H2 by done.
      simplify_eq. apply Hq; [|done]. apply Hkeys. by rewrite H2.
    + rewrite lookup_insert_eq in H2. rewrite lookup_insert_ne in H1 by done.
      simplify_eq. rewrite conflict_sym. apply Hq; [|done].
      apply Hkeys. by rewrite H1.
    + rewrite lookup_insert_ne in H1, H2 by done. by eapply Hfree.
Qed.

Lemma try_cols_spec (set_copy : copy_order)
    (recurse : gmap Z (list Z) → gmap Z (option Z) → res (bool * search_state))
    (neighbors : gmap Z (list Z)) (n row : Z) :
  copies set_copy →
  neighbors_in_range neighbors n →
  restores_and_solves n recurse →
  row ∈ range n →
  ∀ candidate_cols domains assignment b domains' assignment',
    assignment !! row = Some None →
    try_cols set_copy recurse neighbors n row candidate_cols domains assignment
    = Ok (b, (domains', assignment')) →
    (b = false → same_sets domains domains' ∧ assignment' = assignment) ∧
    (b = true → search_invariant n domains assignment →
       (∀ c, c ∈ candidate_cols → c ∈ range n) →
       solution n assignment').
Proof.
  intros Hcopy Hin Hrec Hrow.
  induction candidate_cols as [|col cols IH];
    intros d a b d' a' Hunassigned H; simpl in H.
  { simplify_eq. split; [|done]. intros _. split; [apply same_sets_refl|done]. }
  inv_bind H. rename a0 into clash, Ha into Hquick. destruct clash; simpl in H.
  { destruct (IH _ _ _ _ _ Hunassigned H) as [Hf Ht]. split; [done|].
    intros -> Hinv Hcols. apply Ht; [done..|].
    intros c ?. apply Hcols. by right. }
  inv_bind H. rename a0 into saved, Ha into Hsaved.
  inv_bind H. destruct a0 as [consistent d2]. rename Ha into Hac3.
  inv_bind H. destruct a0 as [found [d3 a3]]. rename Ha into Hnested.
  destruct found.
  - simplify_eq. split; [done|]. intros _ Hinv Hcols.
    destruct consistent; [|done].
    apply Hrec in Hnested as [_ Ht]. apply Ht; [done|].
    assert (search_invariant n (<[row:=[col]]> d) (<[row:=Some col]> a))
      as (Hd1 & Ha1 & Hfree1).
    { apply search_invariant_assign; [done..|apply Hcols; by left|done]. }
    split_and!; [|done..].
    eapply columns_on_board_shrinks; [|done]. by eapply AC3_shrinks.
  - assert (same_sets d2 d3 ∧ a3 = <[row := Some col]> a) as [Hd3 ->].
    { destruct consistent.
      - apply Hrec in Hnested as [Hf _]. by apply Hf.
      - simplify_eq. split; [apply same_sets_refl|done]. }
    inv_bind H. rename a0 into restored, Ha into Hrestored.
    assert (same_sets d restored) as Hback.
    { by eapply (restore_after_failure (set_copy (<[row := Some col]> a))). }
    rewrite insert_insert_eq, (insert_id a row None) in H by done.
    destruct (IH _ _ _ _ _ Hunassigned H) as [Hf Ht]. split.
    + intros Hb. destruct (Hf Hb) as [Hd' ->]. split; [|done].
      by eapply same_sets_trans.
    + intros -> Hinv Hcols.
      apply Ht; [done|by eapply same_sets_search_invariant|].
      intros c ?. apply Hcols. by right.
Qed.

Lemma backtracking_search_fuel_spec (set_copy : copy_order)
    (neighbors : gmap Z (list Z)) (n : Z) (fuel : nat) :
  copies set_copy →
  neighbors_in_range neighbors n →
  restores_and_solves n
    (λ domains assignment,
       backtracking_search_fuel set_copy fuel domains neighbors assignment n).
Proof.
  intros Hcopy Hin. induction fuel as [|fuel IH]; intros d a b d' a' H; [done|].
  simpl in H. inv_bind H. rename a0 into unassigned_rows.
  apply unassigned_Ok in Ha as [Hkeys ->].
  case_bool_decide as Hnil.
  - simplify_eq. split; [by split; [apply same_sets_refl|]|].
    intros _ (_ & Hboard & Hfree).
    split_and!; [|done..]. intros r Hr.
    destruct (Hkeys r Hr) as [[c|] Hc]; [eauto|].
    exfalso. eapply (filter_nil_not_elem_of _ _ r Hnil); done.
  - inv_bind H. destruct a0 as [row post].
    apply select_unassigned_row_Ok in Ha as (-> & Hhead & _).
    assert (row ∈ range n ∧ a !! row = Some None) as [Hrow Hunassigned].
    { apply head_Some_elem_of in Hhead. rewrite sorted_by_perm in Hhead.
      by apply list_elem_of_filter in Hhead as [? ?]. }
    simpl in H. inv_bind H. destruct a0 as [cols post].
    apply order_domain_values_Ok in Ha as (-> & values & Hvalues & -> & _).
    simpl in H.
    destruct (try_cols_spec _ _ _ _ _ Hcopy Hin IH Hrow _ _ _ _ _ _
                Hunassigned H) as [Hf Ht].
    split; [done|]. intros -> Hinv. apply Ht; [done..|].
    intros c Hc. rewrite sorted_by_perm in Hc.
    destruct Hinv as (Hd & _). by eapply Hd.
Qed.

(** C3: whatever the order in which the copies of a snapshot iterate, and
    when the neighbours of the rows of the board are rows of the board, a
    tentative assignment that fails (at [AC3], or in the nested search) is
    undone: the snapshot holds, row by row, the members the domains had
    before the assignment; the restore succeeds and makes the domain of
    every row the set of the snapshot, so that the domains are again the
    sets they were; the row is unassigned again; and the loop goes on with
    the next column from this state.  So a search that returns [False]
    returns the assignment it was given and domains equal to those it was
    given, key by key the same members. *)
Theorem backtracking_search_restores (set_copy : copy_order)
    (domains neighbors : gmap Z (list Z)) (assignment : gmap Z (option Z))
    (n : Z)
    (Hcopy : copies set_copy)
    (Hneighbors : neighbors_in_range neighbors n) :
  (∀ fuel row col cols saved_domains consistent pruned failed,
     row ∈ range n → assignment !! row = Some None →
     any_conflict assignment row col (range n) = Ok false →
     snapshot (set_copy (<[row := Some col]> assignment)) domains (range n) ∅
     = Ok saved_domains →
     AC3 (<[row := [col]]> domains) neighbors n = Ok (consistent, pruned) →
     (consistent = false ∧ failed = pruned ∨
      consistent = true ∧
      ∃ assignment',
        backtracking_search_fuel set_copy fuel pruned neighbors
          (<[row := Some col]> assignment) n
        = Ok (false, (failed, assignment'))) →
     ∃ restored,
       (∀ r, r ∈ range n →
          same_members (domains !! r) (saved_domains !! r)) ∧
       restore failed saved_domains (range n) = Ok restored ∧
       (∀ r, r ∈ range n → restored !! r = saved_domains !! r) ∧
       same_sets domains restored ∧
       <[row := None]> (<[row := Some col]> assignment) = assignment ∧
       try_cols set_copy
         (λ domains assignment,
            backtracking_search_fuel set_copy fuel domains neighbors
              assignment n)
         neighbors n row (col :: cols) domains assignment
       = try_cols set_copy
           (λ domains assignment,
              backtracking_search_fuel set_copy fuel domains neighbors
                assignment n)
           neighbors n row cols restored assignment) ∧
  (∀ domains' assignment',
     backtracking_search set_copy domains neighbors assignment n
     = Ok (false, (domains', assignment')) →
     same_sets domains domains' ∧ assignment' = assignment).
Proof.
  split.
  - intros fuel row col cols saved consistent pruned failed Hrow Hunassigned
      Hquick Hsaved Hac3 Hfail.
    assert (same_sets pruned failed ∧
            (if consistent
             then backtracking_search_fuel set_copy fuel pruned neighbors
                    (<[row := Some col]> assignment) n
             else Ok (false, (pruned, <[row := Some col]> assignment)))
            = Ok (false, (failed, <[row := Some col]> assignment)))
      as [Hfailed Hnested].
    { destruct Hfail as [[-> ->]|[-> [a' Hnested]]].
      - split; [apply same_sets_refl|done].
      - destruct (backtracking_search_fuel_spec _ _ _ _ Hcopy Hneighbors
                    _ _ _ _ _ Hnested) as [[Hd ->] _]; done. }
    assert (∃ restored, restore failed saved (range n) = Ok restored)
      as [restored Hrestored].
    { apply restore_total. intros r Hr.
      rewrite (snapshot_Ok _ _ _ _ _ Hsaved), decide_True by done.
      apply fmap_is_Some. by eapply snapshot_keys. }
    assert (same_sets domains restored ∧
            ∀ r, r ∈ range n → restored !! r = saved !! r)
      as [Hback Hexact].
    { eapply restore_snapshot; [apply Hcopy|done| |done].
      intros r Hr. eapply same_members_trans; [|apply Hfailed].
      rewrite (AC3_frame _ _ _ _ _ _ Hneighbors Hac3 Hr).
      rewrite lookup_insert_ne by (by intros ->). apply same_members_refl. }
    assert (<[row := None]> (<[row := Some col]> assignment) = assignment)
      as Hundo.
    { rewrite insert_insert_eq. by apply insert_id. }
    exists restored. split_and!; [|done..|].
    { intros r Hr.
      rewrite (snapshot_Ok _ _ _ _ _ Hsaved), decide_True by done.
      destruct (domains !! r); simpl; [apply Hcopy|done]. }
    simpl. rewrite Hquick. simpl. rewrite Hsaved. simpl. rewrite Hac3. simpl.
    rewrite Hnested. simpl. by rewrite Hrestored, Hundo.
  - intros d' a' H.
    apply (backtracking_search_fuel_spec _ _ _ _ Hcopy Hneighbors) in H
      as [Hf _].
    by apply Hf.
Qed.

Lemma backtracking_search_restores_witness :
  (∃ restored,
     (∀ r, r ∈ range 3 →
        same_members (initial_domains 3 !! r)
          (three_queens_snapshot !! r)) ∧
     restore three_queens_pruned three_queens_snapshot (range 3)
     = Ok restored ∧
     (∀ r, r ∈ range 3 → restored !! r = three_queens_snapshot !! r) ∧
     same_sets (initial_domains 3) restored ∧
     <[0%Z := None]> (<[0%Z := Some 0%Z]> (initial_assignment 3))
     = initial_assignment 3 ∧
     try_cols reversed
       (λ domains assignment,
          backtracking_search_fuel reversed 3 domains
            (initial_neighbors 3) assignment 3)
       (initial_neighbors 3) 3 0 [0; 1; 2]%Z
       (initial_domains 3) (initial_assignment 3)
     = try_cols reversed
         (λ domains assignment,
            backtracking_search_fuel reversed 3 domains
              (initial_neighbors 3) assignment 3)
         (initial_neighbors 3) 3 0 [1; 2]%Z restored (initial_assignment 3)) ∧
  (same_sets (initial_domains 3) three_queens_snapshot ∧
   initial_assignment 3 = initial_assignment 3).
Proof.
  destruct (backtracking_search_restores reversed (initial_domains 3)
              (initial_neighbors 3) (initial_assignment 3) 3) as [Hstep Hcall].
  { apply reversed_copies. }
  { apply initial_well_formed. }
  split.
  - apply (Hstep 3 0%Z 0%Z [1; 2]%Z three_queens_snapshot false
             three_queens_pruned three_queens_pruned).
    + by apply elem_of_range.
    + vm_compute. reflexivity.
    + vm_compute. reflexivity.
    + vm_compute. reflexivity.
    + vm_compute. reflexivity.
    + by left.
  - apply Hcall. vm_compute. reflexivity.
Defined.

(** ** solve_nqueens_csp *)

Lemma initial_search_invariant (n : Z) :
  search_invariant n (initial_domains n) (initial_assignment n).
Proof.
  split_and!.
  - intros r s c (_ & ->)%lookup_dict_of_range_Some Hc. done.
  - split.
    + intros r [a (? & _)%lookup_dict_of_range_Some]. done.
    + by intros r c (_ & ?)%lookup_dict_of_range_Some.
  - by intros r1 r2 c1 c2 _ (_ & ?)%lookup_dict_of_range_Some.
Qed.

Lemma solve_nqueens_csp_solution (set_copy : copy_order) (n : Z)
    (assignment : gmap Z (option Z)) :
  copies set_copy →
  solve_nqueens_csp set_copy n = Ok (Some assignment) → solution n assignment.
Proof.
  unfold solve_nqueens_csp. intros Hcopy H.
  inv_bind H. destruct a as [consistent domains]. rename Ha into Hac3.
  destruct consistent; [|done]. simpl in H.
  inv_bind H. destruct a as [success [domains' assignment']].
  destruct success; [|done]. simplify_eq.
  apply (backtracking_search_fuel_spec _ _ _ _ Hcopy
           (proj2 (proj2 (proj2 (initial_well_formed n))))) in Ha as [_ Ht].
  apply Ht; [done|].
  destruct (initial_search_invariant n) as (Hd & Ha & Hfree).
  split_and!; [|done..].
  eapply columns_on_board_shrinks; [|done]. by eapply AC3_shrinks.
Qed.

(** C1: for [n >= 1], and whatever the order in which the copies of the
    snapshots iterate, an assignment returned by [solve_nqueens_csp(n)]
    gives every row [0..n-1] a column in [0..n-1], has no other key, and no
    two of its rows conflict. *)
Theorem solve_nqueens_csp_sound (set_copy : copy_order) (n : Z)
    (assignment : gmap Z (option Z))
    (Hcopy : copies set_copy)
    (Hn : (1 ≤ n)%Z)
    (Hsolve : solve_nqueens_csp set_copy n = Ok (Some assignment)) :
  (∀ r, (0 ≤ r < n)%Z →
     ∃ c, assignment !! r = Some (Some c) ∧ (0 ≤ c < n)%Z) ∧
  (∀ r, is_Some (assignment !! r) → (0 ≤ r < n)%Z) ∧
  (∀ r1 r2 c1 c2, r1 ≠ r2 →
     assignment !! r1 = Some (Some c1) → assignment !! r2 = Some (Some c2) →
     conflict r1 c1 r2 c2 = false).
Proof.
  apply solve_nqueens_csp_solution in Hsolve
    as (Hall & [Hkeys Hcols] & Hfree); [|done].
  split_and!.
  - intros r Hr%elem_of_range. destruct (Hall r Hr) as [c Hc].
    exists c. split; [done|]. by eapply elem_of_range, Hcols.
  - intros r Hr. by apply elem_of_range, Hkeys.
  - done.
Qed.

Lemma solve_nqueens_csp_sound_witness :
  (∀ r, (0 ≤ r < 8)%Z →
     ∃ c, (list_to_map
             [(0, Some 0); (1, Some 5); (2, Some 7); (3, Some 2);
              (4, Some 6); (5, Some 3); (6, Some 1); (7, Some 4)]%Z
           : gmap Z (option Z)) !! r = Some (Some c) ∧ (0 ≤ c < 8)%Z) ∧
  (∀ r, is_Some ((list_to_map
             [(0, Some 0); (1, Some 5); (2, Some 7); (3, Some 2);
              (4, Some 6); (5, Some 3); (6, Some 1); (7, Some 4)]%Z
           : gmap Z (option Z)) !! r) → (0 ≤ r < 8)%Z) ∧
  (∀ r1 r2 c1 c2, r1 ≠ r2 →
     (list_to_map
        [(0, Some 0); (1, Some 5); (2, Some 7); (3, Some 2);
         (4, Some 6); (5, Some 3); (6, Some 1); (7, Some 4)]%Z
      : gmap Z (option Z)) !! r1 = Some (Some c1) →
     (list_to_map
        [(0, Some 0); (1, Some 5); (2, Some 7); (3, Some 2);
         (4, Some 6); (5, Some 3); (6, Some 1); (7, Some 4)]%Z
      : gmap Z (option Z)) !! r2 = Some (Some c2) →
     conflict r1 c1 r2 c2 = false).
Proof.
  apply (solve_nqueens_csp_sound reversed 8);
    [apply reversed_copies|lia|]. vm_compute. reflexivity.
Defined.

(** C4: [solve_nqueens_csp(1)] returns the assignment of row 0 to column 0;
    [solve_nqueens_csp(2)] and [solve_nqueens_csp(3)] return [None], as the
    value of the call and not by raising.  No restore from a snapshot is
    reached, so the order of the copies has no part in it. *)
Theorem solve_nqueens_csp_small (set_copy : copy_order) :
  solve_nqueens_csp set_copy 1 = Ok (Some {[0%Z := Some 0%Z]}) ∧
  solve_nqueens_csp set_copy 2 = Ok None ∧
  solve_nqueens_csp set_copy 3 = Ok None.
Proof.
  split_and!.
  - vm_compute. reflexivity.
  - vm_compute. reflexivity.
  - vm_compute. reflexivity.
Qed.

Lemma AC3_idempotent_witness :
  AC3 four_queens (initial_neighbors 4) 4 = Ok (true, four_queens).
Proof.
  apply AC3_idempotent.
  - intros r Hr%elem_of_range.
    assert (r = 0 ∨ r = 1 ∨ r = 2 ∨ r = 3)%Z as Hcases by lia.
    destruct Hcases as [-> | [-> | [-> | ->]]]; vm_compute; eauto.
  - apply initial_well_formed.
  - apply (AC3_true_arc_consistent first_row_assigned);
      [apply initial_symmetric|]. vm_compute. reflexivity.
Defined.

(** ** The search returns *)

Lemma unassigned_count_assign (n row col : Z) (assignment : gmap Z (option Z)) :
  row ∈ range n → assignment !! row = Some None →
  unassigned_count n (<[row := Some col]> assignment)
  < unassigned_count n assignment.
Proof.
  intros Hrow Hunassigned. unfold unassigned_count.
  rewrite <- (list_filter_filter_l
                (λ r, <[row := Some col]> assignment !! r = Some None)
                (λ r, assignment !! r = Some None)).
  - apply (length_filter_lt _ _ row).
    + by apply list_elem_of_filter.
    + by rewrite lookup_insert_eq.
  - intros r. destruct (decide (row = r)) as [<-|Hne].
    + by rewrite lookup_insert_eq.
    + by rewrite lookup_insert_ne.
Qed.

Lemma constraining_cost_total (domains neighbors : gmap Z (list Z))
    (n row col : Z) :
  well_formed domains neighbors n → row ∈ range n →
  constraining_cost domains neighbors row col
  = Ok (lcv_cost domains neighbors row col).
Proof.
  intros (Hd & _ & Hnb & Hin) Hrow. unfold constraining_cost.
  destruct (Hnb row Hrow) as [nbs Hnbs].
  rewrite (getitem_Some _ _ _ Hnbs). simpl.
  assert (∀ nb, nb ∈ nbs → is_Some (domains !! nb)) as Hnbs_keys.
  { intros nb Hnb_in. apply Hd, (Hin row). split; eauto. }
  assert (∀ cost, ∃ cost',
            cost_nbs domains row col nbs cost = Ok cost') as Hcost.
  { clear Hnbs. induction nbs as [|nb nbs IH]; intros cost; simpl; [eauto|].
    destruct (Hnbs_keys nb) as [vals Hvals]; [by left|].
    rewrite (getitem_Some _ _ _ Hvals). simpl.
    apply IH. intros k ?. apply Hnbs_keys. by right. }
  destruct (Hcost 0%Z) as [cost' Hcost'].
  rewrite Hcost'. f_equal. apply constraining_cost_Ok.
  unfold constraining_cost. by rewrite (getitem_Some _ _ _ Hnbs).
Qed.

Lemma mrv_key_total (domains neighbors : gmap Z (list Z)) (n r : Z) :
  well_formed domains neighbors n → r ∈ range n →
  mrv_key domains neighbors r = Ok (mrv_key_of domains neighbors r).
Proof.
  intros (Hd & _ & Hnb & _) Hr. unfold mrv_key, mrv_key_of.
  destruct (Hd r Hr) as [s Hs]. destruct (Hnb r Hr) as [nbs Hnbs].
  by rewrite (getitem_Some _ _ _ Hs), (getitem_Some _ _ _ Hnbs), Hs, Hnbs.
Qed.

Lemma AC3_well_formed (domains neighbors : gmap Z (list Z)) (n : Z) (b : bool)
    (domains' : gmap Z (list Z)) :
  well_formed domains neighbors n →
  AC3 domains neighbors n = Ok (b, domains') →
  well_formed domains' neighbors n.
Proof.
  intros (Hd & Hs & Hnb & Hin) Hsh%AC3_shrinks. split_and!; [| |done..].
  - by eapply shrinks_has_rows.
  - by eapply shrinks_sets.
Qed.

Lemma try_cols_total (set_copy : copy_order)
    (recurse : gmap Z (list Z) → gmap Z (option Z) → res (bool * search_state))
    (neighbors : gmap Z (list Z)) (n row : Z) (fuel : nat) :
  copies set_copy →
  restores_and_solves n recurse →
  (∀ domains assignment,
     well_formed domains neighbors n → has_rows n assignment →
     unassigned_count n assignment < fuel →
     ∃ r, recurse domains assignment = Ok r) →
  row ∈ range n →
  ∀ candidate_cols domains assignment,
    well_formed domains neighbors n → has_rows n assignment →
    assignment !! row = Some None →
    unassigned_count n assignment ≤ fuel →
    ∃ r, try_cols set_copy recurse neighbors n row candidate_cols domains
           assignment
         = Ok r.
Proof.
  intros Hcopy Hrec Htotal Hrow.
  induction candidate_cols as [|col cols IH];
    intros d a Hwf Ha Hunassigned Hcount; simpl; [eauto|].
  destruct (any_conflict_total a row col (range n) Ha) as [clash Hquick].
  rewrite Hquick. simpl. destruct clash; simpl; [by apply IH|].
  destruct (snapshot_total (set_copy (<[row := Some col]> a)) d (range n) ∅)
    as [saved Hsaved]; [apply Hwf|].
  rewrite Hsaved. simpl.
  assert (well_formed (<[row := [col]]> d) neighbors n) as Hwf1.
  { destruct Hwf as (Hd & Hs & Hnb & Hin). split_and!; [| |done..].
    - intros r Hr. destruct (decide (row = r)) as [<-|Hne].
      + by rewrite lookup_insert_eq.
      + rewrite lookup_insert_ne by done. by apply Hd.
    - intros r s. destruct (decide (row = r)) as [<-|Hne].
      + rewrite lookup_insert_eq. intros [= <-]. apply NoDup_singleton.
      + rewrite lookup_insert_ne by done. apply Hs. }
  destruct (AC3_total _ _ _ Hwf1) as (consistent & d2 & Hac3).
  rewrite Hac3. simpl.
  pose proof (AC3_well_formed _ _ _ _ _ Hwf1 Hac3) as Hwf2.
  assert (has_rows n (<[row := Some col]> a)) as Ha1.
  { intros r Hr. destruct (decide (row = r)) as [<-|Hne].
    - by rewrite lookup_insert_eq.
    - rewrite lookup_insert_ne by done. by apply Ha. }
  assert (∃ found d3 a3,
    (if consistent then recurse d2 (<[row := Some col]> a)
     else Ok (false, (d2, <[row := Some col]> a))) = Ok (found, (d3, a3)) ∧
    (found = false → same_sets d2 d3 ∧ a3 = <[row := Some col]> a))
    as (found & d3 & a3 & -> & Hfailed).
  { destruct consistent;
      [|exists false, d2, (<[row := Some col]> a);
        split; [done|]; intros _; split; [apply same_sets_refl|done]].
    destruct (Htotal d2 (<[row := Some col]> a)) as [[found [d3 a3]] Hnested];
      [done..| |].
    - pose proof (unassigned_count_assign n row col a Hrow Hunassigned). lia.
    - exists found, d3, a3. split; [done|]. by apply Hrec in Hnested as [? _]. }
  simpl. destruct found; [eauto|].
  destruct Hfailed as [Hd3 ->]; [done|].
  destruct (restore_total d3 saved (range n)) as [restored Hrestored].
  { intros r Hr. rewrite (snapshot_Ok _ _ _ _ _ Hsaved), decide_True by done.
    apply fmap_is_Some. by apply Hwf. }
  rewrite Hrestored. simpl.
  assert (same_sets d restored) as Hback.
  { eapply (restore_after_failure (set_copy (<[row := Some col]> a)));
      [apply Hcopy|apply Hwf|done..]. }
  rewrite insert_insert_eq, (insert_id a row None) by done.
  apply IH; [by eapply same_sets_well_formed|done..].
Qed.

Lemma backtracking_search_fuel_total (set_copy : copy_order)
    (neighbors : gmap Z (list Z)) (n : Z) (fuel : nat)
    (domains : gmap Z (list Z)) (assignment : gmap Z (option Z)) :
  copies set_copy →
  well_formed domains neighbors n → has_rows n assignment →
  unassigned_count n assignment < fuel →
  ∃ r, backtracking_search_fuel set_copy fuel domains neighbors assignment n
       = Ok r.
Proof.
  intros Hcopy. revert domains assignment.
  induction fuel as [|fuel IH]; intros d a Hwf Ha Hcount; [lia|]. simpl.
  rewrite (unassigned_total a (range n) Ha). simpl.
  case_bool_decide as Hnil; [eauto|].
  assert (∀ r, r ∈ filter (λ r, a !! r = Some None) (range n) → r ∈ range n)
    as Hrows.
  { by intros r [_ ?]%list_elem_of_filter. }
  unfold select_unassigned_row.
  rewrite (list_sort_total tuple_ltb (mrv_key d neighbors)
             (mrv_key_of d neighbors));
    [|intros r Hr; eapply mrv_key_total; eauto].
  simpl.
  destruct (sorted_by tuple_ltb (mrv_key_of d neighbors)
              (filter (λ r, a !! r = Some None) (range n)))
    as [|row sorted] eqn:Hsorted.
  { exfalso. apply Hnil. apply Permutation_nil_r.
    rewrite <- Hsorted. symmetry. apply sorted_by_perm. }
  assert (row ∈ range n ∧ a !! row = Some None) as [Hrow Hunassigned].
  { assert (row ∈ filter (λ r, a !! r = Some None) (range n)) as Hin.
    { rewrite <- (sorted_by_perm tuple_ltb (mrv_key_of d neighbors)), Hsorted.
      by left. }
    by apply list_elem_of_filter in Hin as [? ?]. }
  simpl. unfold order_domain_values.
  destruct (proj1 Hwf row Hrow) as [values Hvalues].
  rewrite (getitem_Some _ _ _ Hvalues). simpl.
  rewrite (list_sort_total Z.ltb (constraining_cost d neighbors row)
             (lcv_cost d neighbors row));
    [|intros c _; by eapply constraining_cost_total].
  simpl. eapply try_cols_total; [done| |by apply IH|done..|lia].
  apply backtracking_search_fuel_spec; [done|apply Hwf].
Qed.

Lemma backtracking_search_returns (set_copy : copy_order)
    (domains neighbors : gmap Z (list Z)) (assignment : gmap Z (option Z))
    (n : Z) :
  copies set_copy →
  well_formed domains neighbors n → has_rows n assignment →
  ∃ r, backtracking_search set_copy domains neighbors assignment n = Ok r.
Proof.
  intros Hcopy Hwf Ha. apply backtracking_search_fuel_total; [done..|].
  unfold unassigned_count.
  pose proof (length_filter (λ r, assignment !! r = Some None) (range n))
    as Hlen.
  unfold range in *. rewrite length_seqZ in Hlen. lia.
Qed.

Lemma solve_nqueens_csp_total (set_copy : copy_order) (n : Z) :
  copies set_copy → ∃ result, solve_nqueens_csp set_copy n = Ok result.
Proof.
  intros Hcopy. unfold solve_nqueens_csp.
  destruct (AC3_total _ _ _ (initial_well_formed n))
    as (consistent & d & Hac3).
  rewrite Hac3. simpl. destruct consistent; simpl; [|eauto].
  destruct (backtracking_search_returns set_copy d (initial_neighbors n)
              (initial_assignment n) n) as [[success [d' a']] Hsearch].
  - done.
  - by eapply AC3_well_formed; [apply initial_well_formed|].
  - intros r Hr. unfold initial_assignment.
    by rewrite lookup_dict_of_range, decide_True.
  - rewrite Hsearch. simpl. eauto.
Qed.

(** Whatever the order in which the copies of the snapshots iterate,
    [solve_nqueens_csp(n)] returns an assignment or [None] for every [n]:
    no subscript raises and the loop of [AC3] ends.  The nesting of
    [backtracking_search] is bounded by the rows left: on well-formed
    domains and an assignment that has every row, a search allowed more
    nested calls than rows are unassigned returns; [n + 1] calls are enough
    for the search of [solve_nqueens_csp(n)].  An interpreter that allows
    fewer raises [RecursionError], which is no outcome of the model. *)
Theorem solve_nqueens_csp_returns (set_copy : copy_order) (n : Z)
    (Hcopy : copies set_copy) :
  (∃ result, solve_nqueens_csp set_copy n = Ok result) ∧
  (∀ fuel domains neighbors assignment,
     well_formed domains neighbors n → has_rows n assignment →
     unassigned_count n assignment < fuel →
     ∃ r, backtracking_search_fuel set_copy fuel domains neighbors
            assignment n = Ok r) ∧
  unassigned_count n (initial_assignment n) < S (Z.to_nat n).
Proof.
  split_and!.
  - by apply solve_nqueens_csp_total.
  - intros fuel d nb a. by apply backtracking_search_fuel_total.
  - unfold unassigned_count.
    pose proof (length_filter (λ r, initial_assignment n !! r = Some None)
                  (range n)) as Hlen.
    unfold range in *. rewrite length_seqZ in Hlen. lia.
Qed.

Lemma solve_nqueens_csp_returns_witness :
  (∃ result, solve_nqueens_csp reversed 6 = Ok result) ∧
  (∀ fuel domains neighbors assignment,
     well_formed domains neighbors 6 → has_rows 6 assignment →
     unassigned_count 6 assignment < fuel →
     ∃ r, backtracking_search_fuel reversed fuel domains neighbors
            assignment 6 = Ok r) ∧
  unassigned_count 6 (initial_assignment 6) < S (Z.to_nat 6).
Proof. apply (solve_nqueens_csp_returns reversed 6), reversed_copies. Defined.

(** * More of the solver *)

(** ** What AC3 never removes *)

Lemma revise_protects (P : Z → Z → Prop) (domains : gmap Z (list Z))
    (Xi Xj : Z) (b : bool) (domains' : gmap Z (list Z)) :
  revise domains Xi Xj = Ok (b, domains') →
  (∀ v, P Xi v → ∃ w, P Xj w ∧ conflict Xi v Xj w = false) →
  protected P domains → protected P domains'.
Proof.
  intros (di & Hi & _ & -> & _)%revise_Ok Hsup HP r v Hv.
  destruct (decide (Xi = r)) as [<-|Hne].
  - rewrite lookup_insert_eq. eexists. split; [done|].
    destruct (HP _ _ Hv) as (s & Hs & Hin). simplify_eq.
    apply elem_of_revised. split; [done|].
    destruct (Hsup _ Hv) as (w & Hw & Hc).
    destruct (HP _ _ Hw) as (dj & -> & Hwin). simpl. by exists w.
  - rewrite lookup_insert_ne by done. by apply HP.
Qed.

(** Values that support one another along every arc the loop can visit
    stay in the domains. *)
Lemma AC3_run_protects (neighbors : gmap Z (list Z)) (P A : Z → Z → Prop)
    (domains : gmap Z (list Z)) (queue : list (Z * Z)) (b : bool)
    (domains' : gmap Z (list Z)) :
  (∀ Xi Xj nbs Xk,
     A Xi Xj → neighbors !! Xi = Some nbs → Xk ∈ nbs → A Xk Xi) →
  (∀ a c v, A a c → P a v → ∃ w, P c w ∧ conflict a v c w = false) →
  AC3_run neighbors domains queue (b, domains') →
  (∀ a c, (a, c) ∈ queue → A a c) →
  protected P domains → protected P domains'.
Proof.
  intros Hclosed Hsup H. remember (b, domains') as r eqn:Hr. revert Hr.
  induction H as [d|d Xi Xj q d1 r Hrev _ IH|d Xi Xj q d1 Hrev Hempty
                 |d Xi Xj q d1 di nbs r Hrev Hdi Hne Hnbs _ IH];
    intros ? Hq HP; simplify_eq.
  - done.
  - apply IH; [done| |].
    + intros a c ?. apply Hq. by right.
    + eapply revise_protects; [done| |done].
      intros v. apply Hsup, Hq. by left.
  - eapply revise_protects; [done| |done].
    intros v. apply Hsup, Hq. by left.
  - assert (A Xi Xj) as HA by (apply Hq; by left).
    apply IH; [done| |].
    + intros a c [?|(Ha & _ & ->)%elem_of_requeue]%elem_of_app;
        [apply Hq; by right|].
      by eapply Hclosed.
    + eapply revise_protects; [done| |done]. intros v. by apply Hsup.
Qed.

Lemma sub_domains_protected (e d : gmap Z (list Z)) :
  sub_domains e d ↔ protected (λ r v, ∃ s, e !! r = Some s ∧ v ∈ s) d.
Proof.
  split.
  - intros H r v (s & Hs & Hv). by eapply H.
  - intros H r s v Hs Hv. apply H. eauto.
Qed.

(** The domains [AC3] returns are the largest arc-consistent ones below the
    domains it was given: it never removes a value of an arc-consistent
    family [e] below them, and when it returns [True] the result is
    arc-consistent itself, so that [AC3] run on the result returns [True]
    and the same domains. *)
Theorem AC3_greatest_arc_consistent (domains neighbors : gmap Z (list Z))
    (n : Z) (b : bool) (domains' e : gmap Z (list Z))
    (Hsym : symmetric_neighbors neighbors n)
    (Hcall : AC3 domains neighbors n = Ok (b, domains'))
    (He : sub_domains e domains)
    (Hconsistent : arc_consistent e neighbors n) :
  sub_domains e domains' ∧
  (b = true → has_rows n domains →
     arc_consistent domains' neighbors n ∧
     AC3 domains' neighbors n = Ok (true, domains')).
Proof.
  destruct (AC3_run_of_AC3 _ _ _ _ Hcall) as (queue & Hq & Hrun).
  split.
  - apply sub_domains_protected.
    eapply (AC3_run_protects neighbors _ (arc neighbors n)); [| |done| |].
    + intros Xi Xj nbs Xk [HXi _] Hnbs Hk. apply Hsym. split; eauto.
    + intros a c v Harc (s & Hs & Hv).
      destruct (Hconsistent _ _ Harc _ _ Hs Hv) as (dj & Hj & w & Hw & Hc).
      exists w. eauto.
    + intros a c. apply (AC3_init_arcs _ _ _ Hq).
    + by apply sub_domains_protected.
  - intros -> Hrows.
    pose proof (AC3_true_arc_consistent _ _ _ _ Hsym Hcall) as Hac.
    split; [done|]. unfold AC3. rewrite Hq. cbn [bind].
    apply AC3_loop_consistent.
    + unfold AC3_fuel, AC3_measure. lia.
    + intros a c Hac'%(AC3_init_arcs _ _ _ Hq).
      apply revise_consistent; [|by apply Hac].
      eapply shrinks_has_rows; [by eapply AC3_shrinks|done|apply Hac'].
Qed.

Lemma AC3_greatest_arc_consistent_witness :
  sub_domains four_queens four_queens ∧
  (true = true → has_rows 4 first_row_assigned →
     arc_consistent four_queens (initial_neighbors 4) 4 ∧
     AC3 four_queens (initial_neighbors 4) 4 = Ok (true, four_queens)).
Proof.
  assert (AC3 first_row_assigned (initial_neighbors 4) 4
          = Ok (true, four_queens)) as Hcall by (vm_compute; reflexivity).
  apply (AC3_greatest_arc_consistent first_row_assigned (initial_neighbors 4)
           4 true four_queens four_queens (initial_symmetric 4) Hcall).
  - intros r s v Hs Hv.
    destruct (shrinks_lookup_inv _ _ _ _ (AC3_shrinks _ _ _ _ _ Hcall) Hs)
      as (s0 & Hs0 & Hsub).
    exists s0. split; [done|]. by eapply elem_of_sublist.
  - by eapply AC3_true_arc_consistent; [apply initial_symmetric|].
Defined.

(** A peaceful placement inside the domains is inside the domains [AC3]
    returns, and [AC3] returns [True]: [False] means that no peaceful
    placement is inside the domains. *)
Lemma AC3_keeps_placements (domains neighbors : gmap Z (list Z)) (n : Z)
    (b : bool) (domains' : gmap Z (list Z)) (s : Z → Z) :
  neighbors_in_range neighbors n → irreflexive_neighbors neighbors n →
  peaceful n s → inside n s domains →
  AC3 domains neighbors n = Ok (b, domains') →
  b = true ∧ inside n s domains'.
Proof.
  intros Hin Hirr Hs Hd Hcall.
  destruct (AC3_run_of_AC3 _ _ _ _ Hcall) as (queue & Hq & Hrun).
  assert (inside n s domains') as Hd'.
  { intros r Hr.
    eapply (AC3_run_protects neighbors (λ r v, r ∈ range n ∧ v = s r)
              (λ a c, a ∈ range n ∧ c ∈ range n ∧ a ≠ c));
      [| |done| | |done].
    - intros Xi Xj nbs Xk (HXi & _ & _) Hnbs Hk.
      assert (arc neighbors n Xi Xk) as Harc by (split; eauto).
      split_and!; [by eapply Hin|done|]. intros ->. by eapply Hirr.
    - intros a c v (Ha & Hc & Hne) [_ ->]. exists (s c).
      split; [done|]. by apply Hs.
    - intros a c Harc%(AC3_init_arcs _ _ _ Hq).
      split_and!; [apply Harc|by eapply Hin|by eapply Hirr].
    - intros r' v [Hr' ->]. by apply Hd. }
  split; [|done]. destruct b; [done|].
  apply AC3_run_wipeout in Hrun as (X & sX & HX & Hne & Hempty).
  destruct (decide (X ∈ range n)) as [HXr|HXr].
  - destruct (Hd' X HXr) as (di & Hdi & Hin'). simplify_eq.
    by apply elem_of_nil in Hin'.
  - rewrite (AC3_frame _ _ _ _ _ _ Hin Hcall HXr) in Hempty. congruence.
Qed.

(** ** The search is exhaustive *)

Lemma any_conflict_true (assignment : gmap Z (option Z)) (row col : Z)
    (rs : list Z) :
  any_conflict assignment row col rs = Ok true →
  ∃ r2 c2, r2 ∈ rs ∧ assignment !! r2 = Some (Some c2) ∧
           conflict row col r2 c2 = true.
Proof.
  induction rs as [|r rs IH]; intros H; simpl in H; [done|].
  inv_bind H. apply getitem_Ok in Ha.
  assert (any_conflict assignment row col rs = Ok true →
          ∃ r2 c2, r2 ∈ r :: rs ∧ assignment !! r2 = Some (Some c2) ∧
                   conflict row col r2 c2 = true) as Hrest.
  { intros (r2 & c2 & ? & ? & ?)%IH. exists r2, c2. split; [by right|done]. }
  destruct a as [c|]; [|by apply Hrest].
  destruct (conflict row col r c) eqn:Hc; [|by apply Hrest].
  exists r, c. split; [by left|done].
Qed.

Lemma inside_assign (n row col : Z) (s : Z → Z) (domains : gmap Z (list Z)) :
  inside n s domains → s row = col → inside n s (<[row := [col]]> domains).
Proof.
  intros Hd Hrow r Hr. destruct (decide (row = r)) as [<-|Hne].
  - rewrite lookup_insert_eq. eexists. split; [done|]. rewrite Hrow. by left.
  - rewrite lookup_insert_ne by done. by apply Hd.
Qed.

Lemma extends_assign (row col : Z) (s : Z → Z)
    (assignment : gmap Z (option Z)) :
  extends s assignment → s row = col →
  extends s (<[row := Some col]> assignment).
Proof.
  intros Ha Hrow r c. destruct (decide (row = r)) as [<-|Hne].
  - rewrite lookup_insert_eq. by intros [= <-].
  - rewrite lookup_insert_ne by done. apply Ha.
Qed.

Lemma same_sets_inside (n : Z) (s : Z → Z) (d d' : gmap Z (list Z)) :
  same_sets d d' → inside n s d → inside n s d'.
Proof.
  intros H Hd r (di & Hdi & Hs)%Hd.
  destruct (same_sets_lookup _ _ _ _ H Hdi) as (di' & ? & Hp).
  exists di'. split; [done|]. by rewrite Hp.
Qed.

Lemma try_cols_refutes (set_copy : copy_order)
    (recurse : gmap Z (list Z) → gmap Z (option Z) → res (bool * search_state))
    (neighbors : gmap Z (list Z)) (n row : Z) :
  copies set_copy →
  neighbors_in_range neighbors n → irreflexive_neighbors neighbors n →
  restores_and_solves n recurse → refutes n recurse →
  row ∈ range n →
  ∀ candidate_cols domains assignment state s,
    assignment !! row = Some None →
    try_cols set_copy recurse neighbors n row candidate_cols domains
      assignment
    = Ok (false, state) →
    peaceful n s → inside n s domains → extends s assignment →
    s row ∉ candidate_cols.
Proof.
  intros Hcopy Hin Hirr Hrestores Hrefutes Hrow.
  induction candidate_cols as [|col cols IH];
    intros d a state s Hunassigned H Hs Hd Ha; simpl in H.
  { apply not_elem_of_nil. }
  inv_bind H. rename a0 into clash, Ha0 into Hquick.
  destruct clash; simpl in H.
  { intros [Hcol|Hcols]%elem_of_cons; [|by eapply IH].
    apply any_conflict_true in Hquick as (r2 & c2 & Hr2 & Hc2 & Hc).
    assert (r2 ≠ row) as Hne by (intros ->; congruence).
    rewrite <- Hcol, <- (Ha _ _ Hc2), conflict_sym, Hs in Hc; done. }
  inv_bind H. rename a0 into saved, Ha0 into Hsaved.
  inv_bind H. destruct a0 as [consistent d2]. rename Ha0 into Hac3.
  inv_bind H. destruct a0 as [found [d3 a3]]. rename Ha0 into Hnested.
  destruct found; [done|].
  assert (same_sets d2 d3 ∧ a3 = <[row := Some col]> a) as [Hd3 ->].
  { destruct consistent.
    - apply Hrestores in Hnested as [Hf _]. by apply Hf.
    - simplify_eq. split; [apply same_sets_refl|done]. }
  inv_bind H. rename a0 into restored, Ha0 into Hrestored.
  assert (same_sets d restored) as Hback.
  { by eapply (restore_after_failure (set_copy (<[row := Some col]> a))). }
  rewrite insert_insert_eq, (insert_id a row None) in H by done.
  intros [Hcol|Hcols]%elem_of_cons;
    [|eapply IH; [done..|by eapply same_sets_inside|done|done]].
  destruct (AC3_keeps_placements _ _ _ _ _ s Hin Hirr Hs
              (inside_assign _ _ _ _ _ Hd Hcol) Hac3) as [-> Hd2].
  eapply Hrefutes; [done..|]. by apply extends_assign.
Qed.

Lemma backtracking_search_fuel_refutes (set_copy : copy_order)
    (neighbors : gmap Z (list Z)) (n : Z) (fuel : nat) :
  copies set_copy →
  neighbors_in_range neighbors n → irreflexive_neighbors neighbors n →
  refutes n (λ domains assignment,
               backtracking_search_fuel set_copy fuel domains neighbors
                 assignment n).
Proof.
  intros Hcopy Hin Hirr.
  induction fuel as [|fuel IH]; intros d a state s H Hs Hd Ha; [done|].
  simpl in H. inv_bind H. rename a0 into unassigned_rows.
  apply unassigned_Ok in Ha0 as [Hkeys ->].
  case_bool_decide as Hnil; [done|].
  inv_bind H. destruct a0 as [row post].
  apply select_unassigned_row_Ok in Ha0 as (-> & Hhead & _).
  assert (row ∈ range n ∧ a !! row = Some None) as [Hrow Hunassigned].
  { apply head_Some_elem_of in Hhead. rewrite sorted_by_perm in Hhead.
    by apply list_elem_of_filter in Hhead as [? ?]. }
  simpl in H. inv_bind H. destruct a0 as [cols post].
  apply order_domain_values_Ok in Ha0 as (-> & values & Hvalues & -> & _).
  simpl in H.
  eapply (try_cols_refutes _ _ _ _ _ Hcopy Hin Hirr
            (backtracking_search_fuel_spec _ _ _ _ Hcopy Hin) IH Hrow);
    [done..|].
  rewrite sorted_by_perm. destruct (Hd row Hrow) as (di & Hdi & Hsrow).
  by simplify_eq.
Qed.

Lemma initial_irreflexive (n : Z) :
  irreflexive_neighbors (initial_neighbors n) n.
Proof. intros Xi Xj (_ & _ & ?)%initial_arc. done. Qed.

Lemma solution_placement (n : Z) (assignment : gmap Z (option Z)) :
  solution n assignment →
  (∀ r, r ∈ range n → assignment !! r = Some (Some (placement_of assignment r))) ∧
  (∀ r, r ∈ range n → placement_of assignment r ∈ range n) ∧
  peaceful n (placement_of assignment).
Proof.
  intros (Hall & [Hkeys Hcols] & Hfree).
  assert (∀ r, r ∈ range n →
            assignment !! r = Some (Some (placement_of assignment r))) as Hp.
  { intros r [c Hc]%Hall. unfold placement_of. by rewrite Hc. }
  split_and!; [done| |].
  - intros r Hr. by eapply Hcols, Hp.
  - intros r1 r2 Hr1 Hr2 Hne. eapply Hfree; [done|by apply Hp..].
Qed.

(** What [solve_nqueens_csp] returns, in one statement. *)
Lemma solve_nqueens_csp_outcome (set_copy : copy_order) (n : Z) :
  copies set_copy →
  ∃ result, solve_nqueens_csp set_copy n = Ok result ∧
    match result with
    | Some assignment => solution n assignment
    | None => ¬ solvable n
    end.
Proof.
  intros Hcopy.
  destruct (solve_nqueens_csp_total set_copy n Hcopy) as [result Hresult].
  exists result. split; [done|].
  destruct result as [a|]; [by eapply solve_nqueens_csp_solution|].
  intros (s & Hcols & Hs). unfold solve_nqueens_csp in Hresult.
  destruct (initial_well_formed n) as (_ & _ & _ & Hin).
  assert (inside n s (initial_domains n)) as Hd.
  { intros r Hr. exists (range n). split; [|by apply Hcols].
    by apply lookup_dict_of_range_Some. }
  inv_bind Hresult. destruct a as [consistent d]. rename Ha into Hac3.
  destruct (AC3_keeps_placements _ _ _ _ _ s Hin (initial_irreflexive n)
              Hs Hd Hac3) as [-> Hd1].
  simpl in Hresult. inv_bind Hresult. destruct a as [success [d' a']].
  destruct success; [done|].
  eapply (backtracking_search_fuel_refutes _ _ _ _ Hcopy Hin
            (initial_irreflexive n)); [done..|].
  by intros r c (_ & ?)%lookup_dict_of_range_Some.
Qed.

Lemma solution_solvable (n : Z) (assignment : gmap Z (option Z)) :
  solution n assignment → solvable n.
Proof.
  intros (Hp & Hcols & Hs)%solution_placement.
  by exists (placement_of assignment).
Qed.

(** Whatever the order in which the copies of the snapshots iterate,
    [solve_nqueens_csp(n)] returns [None] exactly when [n] queens cannot be
    placed, and an assignment that is a solution exactly when they can. *)
Theorem solve_nqueens_csp_complete (set_copy : copy_order) (n : Z)
    (Hcopy : copies set_copy) :
  (solve_nqueens_csp set_copy n = Ok None ↔ ¬ solvable n) ∧
  ((∃ assignment, solve_nqueens_csp set_copy n = Ok (Some assignment) ∧
                  solution n assignment) ↔ solvable n).
Proof.
  destruct (solve_nqueens_csp_outcome set_copy n Hcopy)
    as (result & Hresult & Hwhat).
  split; split.
  - intros H. rewrite H in Hresult. by simplify_eq.
  - intros Hno. destruct result as [a|]; [|done].
    exfalso. by eapply Hno, solution_solvable.
  - intros (a & _ & Ha). by eapply solution_solvable.
  - intros Hyes. destruct result as [a|]; [eauto|done].
Qed.

Lemma solve_nqueens_csp_complete_witness :
  (solve_nqueens_csp reversed 4 = Ok None ↔ ¬ solvable 4) ∧
  ((∃ assignment, solve_nqueens_csp reversed 4 = Ok (Some assignment) ∧
                  solution 4 assignment) ↔ solvable 4).
Proof. apply (solve_nqueens_csp_complete reversed 4), reversed_copies. Defined.

Lemma four_queens_placement_peaceful : peaceful 4 four_queens_placement.
Proof.
  intros r1 r2 Hr1%elem_of_range Hr2%elem_of_range Hne.
  assert (r1 = 0 ∨ r1 = 1 ∨ r1 = 2 ∨ r1 = 3)%Z as H1 by lia.
  assert (r2 = 0 ∨ r2 = 1 ∨ r2 = 2 ∨ r2 = 3)%Z as H2 by lia.
  destruct H1 as [-> | [-> | [-> | ->]]];
    destruct H2 as [-> | [-> | [-> | ->]]]; done.
Qed.

Lemma four_queens_placement_inside :
  inside 4 four_queens_placement first_row_assigned.
Proof.
  intros r Hr%elem_of_range.
  assert (r = 0 ∨ r = 1 ∨ r = 2 ∨ r = 3)%Z as H by lia.
  destruct H as [-> | [-> | [-> | ->]]]; eexists;
    (split; [vm_compute; reflexivity|]);
    apply list_elem_of_In; vm_compute; repeat (first [by left|right]).
Qed.

(** When the neighbours of the rows are other rows of the board, [AC3]
    removes no column of a peaceful placement inside the domains, and it
    returns [True]: [False] from [AC3] means that no peaceful placement is
    inside the domains it was given. *)
Theorem AC3_keeps_every_placement (domains neighbors : gmap Z (list Z))
    (n : Z) (b : bool) (domains' : gmap Z (list Z)) (s : Z → Z)
    (Hin : neighbors_in_range neighbors n)
    (Hirr : irreflexive_neighbors neighbors n)
    (Hs : peaceful n s) (Hd : inside n s domains)
    (Hcall : AC3 domains neighbors n = Ok (b, domains')) :
  b = true ∧ inside n s domains'.
Proof. by eapply AC3_keeps_placements. Qed.

Lemma AC3_keeps_every_placement_witness :
  true = true ∧ inside 4 four_queens_placement four_queens.
Proof.
  apply (AC3_keeps_every_placement first_row_assigned (initial_neighbors 4) 4
           true four_queens four_queens_placement).
  - apply initial_well_formed.
  - apply initial_irreflexive.
  - apply four_queens_placement_peaceful.
  - apply four_queens_placement_inside.
  - vm_compute. reflexivity.
Defined.

(** Whatever the order in which the copies of the snapshots iterate, and
    when the neighbours of the rows are other rows of the board, a search
    from a state that some peaceful placement inside the domains extends
    does not return [False]. *)
Theorem backtracking_search_exhaustive (set_copy : copy_order)
    (domains neighbors : gmap Z (list Z))
    (assignment : gmap Z (option Z)) (n : Z) (b : bool)
    (state : search_state) (s : Z → Z)
    (Hcopy : copies set_copy)
    (Hin : neighbors_in_range neighbors n)
    (Hirr : irreflexive_neighbors neighbors n)
    (Hs : peaceful n s) (Hd : inside n s domains)
    (Ha : extends s assignment)
    (Hcall : backtracking_search set_copy domains neighbors assignment n
             = Ok (b, state)) :
  b = true.
Proof.
  destruct b; [done|]. exfalso.
  by eapply (backtracking_search_fuel_refutes _ _ _ _ Hcopy Hin Hirr).
Qed.

Lemma backtracking_search_exhaustive_witness : true = true.
Proof.
  apply (backtracking_search_exhaustive reversed first_row_assigned
           (initial_neighbors 4) (initial_assignment 4) 4 true
           (four_queens,
            list_to_map [(0, Some 1); (1, Some 3); (2, Some 0); (3, Some 2)]%Z)
           four_queens_placement).
  - apply reversed_copies.
  - apply initial_well_formed.
  - apply initial_irreflexive.
  - apply four_queens_placement_peaceful.
  - apply four_queens_placement_inside.
  - by intros r c (_ & ?)%lookup_dict_of_range_Some.
  - vm_compute. reflexivity.
Defined.

(** ** revise *)

(** [revise] changes no other domain than that of [Xi], returns [False]
    exactly when it changes nothing, and leaves the arc consistent: called
    again on its result it returns [False] and the same domains. *)
Theorem revise_idempotent (domains : gmap Z (list Z)) (Xi Xj : Z) (b : bool)
    (domains' : gmap Z (list Z))
    (Hcall : revise domains Xi Xj = Ok (b, domains')) :
  (∀ r, r ≠ Xi → domains' !! r = domains !! r) ∧
  (b = false ↔ domains' = domains) ∧
  revise domains' Xi Xj = Ok (false, domains').
Proof.
  split_and!.
  - apply revise_Ok in Hcall as (di & _ & _ & -> & _).
    intros r Hr. by apply lookup_insert_ne.
  - split.
    + intros ->. by eapply revise_unchanged.
    + intros ->. destruct b; [|done].
      apply revise_removed_size in Hcall. lia.
  - apply revise_consistent; [|by eapply revise_arc_consistent].
    apply revise_Ok in Hcall as (di & _ & _ & -> & _).
    by rewrite lookup_insert_eq.
Qed.

Lemma revise_idempotent_witness :
  (∀ r, r ≠ 1%Z →
     (<[1%Z := [0; 2]%Z]> (initial_domains 3) : gmap Z (list Z)) !! r
     = initial_domains 3 !! r) ∧
  (true = false ↔ <[1%Z := [0; 2]%Z]> (initial_domains 3) = initial_domains 3) ∧
  revise (<[1%Z := [0; 2]%Z]> (initial_domains 3)) 1 0
  = Ok (false, <[1%Z := [0; 2]%Z]> (initial_domains 3)).
Proof.
  apply (revise_idempotent (initial_domains 3) 1 0 true).
  vm_compute. reflexivity.
Defined.

Lemma revise_scan_keys (domains : gmap Z (list Z)) (Xi Xj : Z)
    (di to_remove : list Z) :
  di ≠ [] → domains !! Xj = None →
  revise_scan domains Xi Xj di to_remove = Raise KeyError.
Proof.
  intros Hne Hj. destruct di as [|vi di]; [done|]. simpl.
  unfold getitem. by rewrite Hj.
Qed.

(** [revise] on sets raises [KeyError] exactly when [Xi] is no key of
    [domains], or its domain is not empty and [Xj] is no key; it returns
    otherwise.  With an empty domain for [Xi] it returns [False] without
    subscripting [domains] at [Xj]. *)
Theorem revise_raises (domains : gmap Z (list Z)) (Xi Xj : Z)
    (Hsets : sets domains) :
  (revise domains Xi Xj = Raise KeyError ↔
     domains !! Xi = None ∨
     ∃ di, domains !! Xi = Some di ∧ di ≠ [] ∧ domains !! Xj = None) ∧
  ((∃ r, revise domains Xi Xj = Ok r) ∨ revise domains Xi Xj = Raise KeyError) ∧
  (domains !! Xi = Some [] → revise domains Xi Xj = Ok (false, domains)).
Proof.
  assert (domains !! Xi = Some [] → revise domains Xi Xj = Ok (false, domains))
    as Hempty.
  { intros Hi. unfold revise. by rewrite (getitem_Some _ _ _ Hi). }
  destruct (domains !! Xi) as [di|] eqn:Hi.
  - destruct (decide (di = [])) as [->|Hne].
    { rewrite (Hempty eq_refl). split_and!; [|eauto..].
      split; [done|]. intros [?|(di & ? & ? & _)]; by simplify_eq. }
    destruct (domains !! Xj) as [dj|] eqn:Hj.
    + destruct (revise_total domains Xi Xj di) as [r Hr];
        [done|by eapply Hsets|by rewrite Hj|].
      rewrite Hr. split_and!; [|eauto|by intros ?; simplify_eq].
      split; [done|]. intros [?|(di' & ? & ? & ?)]; by simplify_eq.
    + assert (revise domains Xi Xj = Raise KeyError) as ->.
      { unfold revise. rewrite (getitem_Some _ _ _ Hi). cbn [bind].
        by rewrite revise_scan_keys. }
      split_and!; [|eauto|by intros ?; simplify_eq].
      split; [|done]. intros _. right. eauto.
  - assert (revise domains Xi Xj = Raise KeyError) as ->.
    { unfold revise, getitem. by rewrite Hi. }
    split_and!; [|eauto|done]. split; [by left|done].
Qed.

Lemma revise_raises_witness :
  (revise (initial_domains 3) 0 7 = Raise KeyError ↔
     initial_domains 3 !! 0%Z = None ∨
     ∃ di, initial_domains 3 !! 0%Z = Some di ∧ di ≠ [] ∧
           initial_domains 3 !! 7%Z = None) ∧
  ((∃ r, revise (initial_domains 3) 0 7 = Ok r) ∨
   revise (initial_domains 3) 0 7 = Raise KeyError) ∧
  (initial_domains 3 !! 0%Z = Some [] →
   revise (initial_domains 3) 0 7 = Ok (false, initial_domains 3)).
Proof.
  apply (revise_raises (initial_domains 3) 0 7). apply initial_well_formed.
Defined.

(** ** The heuristics: what they select and when they raise *)

(** The row [select_unassigned_row] returns is a row of the list with the
    fewest values left; among these it has the most neighbours, and among
    the rows equal on both counts it is the first of the list. *)
Theorem select_unassigned_row_mrv (domains : gmap Z (list Z))
    (unassigned_rows : list Z) (neighbors : gmap Z (list Z)) (row : Z)
    (post : gmap Z (list Z) * list Z * gmap Z (list Z))
    (Hcall : select_unassigned_row domains unassigned_rows neighbors
             = Ok (row, post)) :
  row ∈ unassigned_rows ∧
  (∃ d_row n_row,
     domains !! row = Some d_row ∧ neighbors !! row = Some n_row ∧
     ∀ x, x ∈ unassigned_rows →
       ∃ d_x n_x, domains !! x = Some d_x ∧ neighbors !! x = Some n_x ∧
         (length d_row < length d_x ∨
          (length d_row = length d_x ∧ length n_x ≤ length n_row))) ∧
  head (filter (λ x, mrv_key_of domains neighbors x
                     = mrv_key_of domains neighbors row) unassigned_rows)
  = Some row.
Proof.
  apply select_unassigned_row_Ok in Hcall as (_ & Hhead & Hkeys).
  destruct (sorted_by_stable_sort tuple_ltb tuple_ltb_asym tuple_ltb_trans
              (mrv_key_of domains neighbors) unassigned_rows)
    as (Hperm & Hsorted & Hstable).
  destruct (sorted_by tuple_ltb (mrv_key_of domains neighbors) unassigned_rows)
    as [|row' rest] eqn:Heq; [done|].
  simpl in Hhead. simplify_eq.
  assert (row ∈ unassigned_rows) as Hrow.
  { rewrite <- Hperm. by left. }
  split_and!; [done| |].
  - destruct (Hkeys row Hrow) as [[d_row Hd] [n_row Hn]].
    exists d_row, n_row. split_and!; [done..|]. intros x Hx.
    destruct (Hkeys x Hx) as [[d_x Hdx] [n_x Hnx]].
    exists d_x, n_x. split_and!; [done..|].
    apply StronglySorted_inv in Hsorted as [_ Hall].
    rewrite <- Hperm in Hx. apply elem_of_cons in Hx as [->|Hx].
    { simplify_eq. right. lia. }
    rewrite Forall_forall in Hall. apply Hall in Hx.
    apply tuple_ltb_false in Hx. unfold mrv_key_of in Hx.
    rewrite Hd, Hn, Hdx, Hnx in Hx. simpl in Hx. lia.
  - rewrite <- Hstable. rewrite filter_cons_True by done. done.
Qed.

Lemma select_unassigned_row_mrv_witness :
  1%Z ∈ [0; 1; 2]%Z ∧
  (∃ d_row n_row,
     example_domains !! 1%Z = Some d_row ∧
     initial_neighbors 3 !! 1%Z = Some n_row ∧
     ∀ x, x ∈ [0; 1; 2]%Z →
       ∃ d_x n_x, example_domains !! x = Some d_x ∧
         initial_neighbors 3 !! x = Some n_x ∧
         (length d_row < length d_x ∨
          (length d_row = length d_x ∧ length n_x ≤ length n_row))) ∧
  head (filter (λ x, mrv_key_of example_domains (initial_neighbors 3) x
                     = mrv_key_of example_domains (initial_neighbors 3) 1)
          [0; 1; 2]%Z)
  = Some 1%Z.
Proof.
  apply (select_unassigned_row_mrv example_domains [0; 1; 2]%Z
           (initial_neighbors 3) 1
           (example_domains, [1; 2; 0]%Z, initial_neighbors 3)).
  vm_compute. reflexivity.
Defined.

Lemma sort_keys_raises {A K : Type} (f : A → res K) (l : list A) (x : A) :
  (∀ y, f y = Raise KeyError ∨ ∃ k, f y = Ok k) →
  x ∈ l → f x = Raise KeyError → sort_keys f l = Raise KeyError.
Proof.
  intros Hf Hx Hraise. induction l as [|y l IH]; [by apply elem_of_nil in Hx|].
  simpl. destruct (Hf y) as [->|[k Hk]]; [done|]. rewrite Hk. simpl.
  apply elem_of_cons in Hx as [->|Hx]; [congruence|].
  by rewrite IH.
Qed.

Lemma mrv_key_cases (domains neighbors : gmap Z (list Z)) (r : Z) :
  mrv_key domains neighbors r = Raise KeyError ∨
  ∃ k, mrv_key domains neighbors r = Ok k.
Proof.
  unfold mrv_key, getitem.
  destruct (domains !! r); [|by left].
  destruct (neighbors !! r); [right; eauto|by left].
Qed.

Lemma cost_nbs_cases (domains : gmap Z (list Z)) (row col : Z) (nbs : list Z)
    (cost : Z) :
  cost_nbs domains row col nbs cost = Raise KeyError ∨
  ∃ k, cost_nbs domains row col nbs cost = Ok k.
Proof.
  revert cost. induction nbs as [|nb nbs IH]; intros cost; simpl;
    [right; eauto|].
  unfold getitem. destruct (domains !! nb); [apply IH|by left].
Qed.

Lemma cost_nbs_raises (domains : gmap Z (list Z)) (row col : Z)
    (nbs : list Z) (cost nb : Z) :
  nb ∈ nbs → domains !! nb = None →
  cost_nbs domains row col nbs cost = Raise KeyError.
Proof.
  revert cost. induction nbs as [|k nbs IH]; intros cost Hnb Hnone;
    [by apply elem_of_nil in Hnb|].
  simpl. unfold getitem.
  destruct (decide (k = nb)) as [->|Hne]; [by rewrite Hnone|].
  apply elem_of_cons in Hnb as [?|Hnb]; [done|].
  destruct (domains !! k); [by apply IH|done].
Qed.

Lemma constraining_cost_cases (domains neighbors : gmap Z (list Z))
    (row col : Z) :
  constraining_cost domains neighbors row col = Raise KeyError ∨
  ∃ k, constraining_cost domains neighbors row col = Ok k.
Proof.
  unfold constraining_cost, getitem.
  destruct (neighbors !! row); [apply cost_nbs_cases|by left].
Qed.

(** The subscripts of the heuristics.  [select_unassigned_row] raises
    [IndexError] on an empty list and [KeyError] when a row of the list is
    no key of [domains] or of [neighbors].  [order_domain_values] raises
    [KeyError] when [row] is no key of [domains], or when its domain is not
    empty and [row] is no key of [neighbors] or has a neighbour that is no
    key of [domains]; on an empty domain it returns the empty list without
    subscripting [neighbors]. *)
Theorem heuristics_raise (domains neighbors : gmap Z (list Z))
    (unassigned_rows : list Z) (row : Z) :
  (unassigned_rows = [] →
   select_unassigned_row domains unassigned_rows neighbors
   = Raise IndexError) ∧
  (∀ x, x ∈ unassigned_rows → domains !! x = None ∨ neighbors !! x = None →
   select_unassigned_row domains unassigned_rows neighbors = Raise KeyError) ∧
  (domains !! row = None →
   order_domain_values row domains neighbors = Raise KeyError) ∧
  (domains !! row = Some [] →
   order_domain_values row domains neighbors = Ok ([], (domains, neighbors))) ∧
  (∀ values, domains !! row = Some values → values ≠ [] →
     neighbors !! row = None ∨
     (∃ nbs nb, neighbors !! row = Some nbs ∧ nb ∈ nbs ∧ domains !! nb = None) →
   order_domain_values row domains neighbors = Raise KeyError).
Proof.
  split_and!.
  - by intros ->.
  - intros x Hx Hnone. unfold select_unassigned_row, list_sort.
    rewrite (sort_keys_raises _ _ x); [done|apply mrv_key_cases|done|].
    unfold mrv_key, getitem. destruct Hnone as [->| ->]; [done|].
    by destruct (domains !! x).
  - intros Hrow. unfold order_domain_values, getitem. by rewrite Hrow.
  - intros Hrow. unfold order_domain_values.
    by rewrite (getitem_Some _ _ _ Hrow).
  - intros values Hrow Hne Hnone. unfold order_domain_values, list_sort.
    rewrite (getitem_Some _ _ _ Hrow). cbn [bind].
    destruct values as [|v values]; [done|].
    rewrite (sort_keys_raises _ _ v); [done| |by left|].
    + intros y. apply constraining_cost_cases.
    + unfold constraining_cost.
      destruct Hnone as [Hnone|(nbs & nb & Hnbs & Hnb & Hnone)].
      * unfold getitem. by rewrite Hnone.
      * rewrite (getitem_Some _ _ _ Hnbs). cbn [bind].
        by eapply cost_nbs_raises.
Qed.

(** ** Boards without rows, and missing rows *)

Lemma range_nonpositive (n : Z) : (n ≤ 0)%Z → range n = [].
Proof.
  intros Hn. unfold range, seqZ. by replace (Z.to_nat n) with 0%nat by lia.
Qed.

(** For [n <= 0] there is no row: [AC3] returns [True] and the domains it
    was given, whatever they are, the search returns [True] with its state
    unchanged, and [solve_nqueens_csp] returns the empty assignment, not
    [None].  For any [n], [AC3] raises [KeyError] when a row of [range(n)]
    is no key of [neighbors]. *)
Theorem empty_board_and_missing_rows (set_copy : copy_order)
    (domains neighbors : gmap Z (list Z))
    (assignment : gmap Z (option Z)) (n : Z) :
  ((n ≤ 0)%Z →
   AC3 domains neighbors n = Ok (true, domains) ∧
   backtracking_search set_copy domains neighbors assignment n
   = Ok (true, (domains, assignment)) ∧
   solve_nqueens_csp set_copy n = Ok (Some ∅)) ∧
  (∀ r, r ∈ range n → neighbors !! r = None →
   AC3 domains neighbors n = Raise KeyError).
Proof.
  split.
  - intros Hn.
    assert (∀ d nb, AC3 d nb n = Ok (true, d)) as Hac3.
    { intros d nb. unfold AC3. by rewrite range_nonpositive. }
    assert (∀ d nb a,
              backtracking_search set_copy d nb a n = Ok (true, (d, a)))
      as Hsearch.
    { intros d nb a. unfold backtracking_search. simpl.
      by rewrite range_nonpositive. }
    split_and!; [done..|].
    unfold solve_nqueens_csp. rewrite Hac3. simpl. rewrite Hsearch. simpl.
    unfold initial_assignment, dict_of_range. by rewrite range_nonpositive.
  - intros r Hr Hnone. unfold AC3.
    assert (∀ rs queue, r ∈ rs →
              AC3_init neighbors rs queue = Raise KeyError) as ->; [|done..].
    intros rs. induction rs as [|k rs IH]; intros queue Hin;
      [by apply elem_of_nil in Hin|].
    simpl. unfold getitem.
    destruct (decide (k = r)) as [->|Hne]; [by rewrite Hnone|].
    apply elem_of_cons in Hin as [?|Hin]; [done|].
    destruct (neighbors !! k); [by apply IH|done].
Qed.

(** ** The symmetries of conflict *)

(** [conflict] does not change when both squares are moved by the same
    rows and columns, or when the columns or the rows are mirrored; two
    squares of one row conflict only if they are the same square.  So the
    mirror image of a peaceful placement is peaceful. *)
Theorem conflict_symmetries (r1 c1 r2 c2 dr dc n : Z) (s : Z → Z) :
  conflict (r1 + dr) (c1 + dc) (r2 + dr) (c2 + dc) = conflict r1 c1 r2 c2 ∧
  conflict r1 (n - 1 - c1) r2 (n - 1 - c2) = conflict r1 c1 r2 c2 ∧
  conflict (n - 1 - r1) c1 (n - 1 - r2) c2 = conflict r1 c1 r2 c2 ∧
  (conflict r1 c1 r1 c2 = true ↔ c1 = c2) ∧
  (peaceful n s → peaceful n (λ r, n - 1 - s r)%Z).
Proof.
  split_and!.
  - apply eq_true_iff_eq. rewrite !conflict_true. lia.
  - apply eq_true_iff_eq. rewrite !conflict_true. lia.
  - apply eq_true_iff_eq. rewrite !conflict_true. lia.
  - rewrite conflict_true. lia.
  - intros Hs a b Ha Hb Hne. specialize (Hs a b Ha Hb Hne).
    apply not_true_iff_false. apply not_true_iff_false in Hs.
    rewrite conflict_true in *. lia.
Qed.

(** ** The report and the command line *)

Lemma print_rows_placement (assignment : gmap Z (option Z)) (s : Z → Z)
    (rs : list Z) (out : list string) :
  (∀ r, r ∈ rs → assignment !! r = Some (Some (s r))) →
  print_rows assignment rs out
  = (out ++ ((λ r, row_line r (s r)) <$> rs), Returns).
Proof.
  revert out. induction rs as [|r rs IH]; intros out Hrs; simpl.
  - by rewrite app_nil_r.
  - rewrite (Hrs r) by (by left). rewrite IH; [|intros k ?; apply Hrs; by right].
    by rewrite <- (assoc_L (++)).
Qed.

Lemma row_line_inj (r c1 c2 : Z) : row_line r c1 = row_line r c2 → c1 = c2.
Proof.
  unfold row_line, str. intros H. repeat apply String.app_inj in H.
  apply pretty_Z_inj in H. lia.
Qed.

(** For an assignment that gives every row of [range(n)] a column,
    [print_solution] returns after printing the heading and one line per
    row, in the order of the rows, row and column counted from 1; and the
    lines tell the columns: two such assignments with the same report agree
    on every row. *)
Theorem print_solution_report (assignment assignment' : gmap Z (option Z))
    (n : Z) (s s' : Z → Z)
    (Hrows : ∀ r, r ∈ range n → assignment !! r = Some (Some (s r)))
    (Hrows' : ∀ r, r ∈ range n → assignment' !! r = Some (Some (s' r))) :
  print_solution (Some assignment) n
  = ("Solution found!" :: ((λ r, row_line r (s r)) <$> range n), Returns) ∧
  length (print_solution (Some assignment) n).1 = S (Z.to_nat n) ∧
  (print_solution (Some assignment') n = print_solution (Some assignment) n →
   ∀ r, r ∈ range n → s' r = s r).
Proof.
  assert (∀ a t, (∀ r, r ∈ range n → a !! r = Some (Some (t r))) →
    print_solution (Some a) n
    = ("Solution found!" :: ((λ r, row_line r (t r)) <$> range n), Returns))
    as Hprint.
  { intros a t Ha. unfold print_solution. by rewrite (print_rows_placement a t). }
  rewrite (Hprint _ _ Hrows), (Hprint _ _ Hrows'). split_and!; [done| |].
  - simpl. rewrite length_fmap. unfold range. by rewrite length_seqZ.
  - intros [= Heq] r Hr.
    eapply row_line_inj, (list_fmap_inj_1 _ _ _ _ Heq Hr).
Qed.

Lemma print_solution_report_witness :
  print_solution
    (Some (list_to_map [(0, Some 1); (1, Some 3); (2, Some 0); (3, Some 2)]%Z)) 4
  = ("Solution found!"
       :: ((λ r, row_line r (four_queens_placement r)) <$> range 4), Returns) ∧
  length (print_solution
            (Some (list_to_map
                     [(0, Some 1); (1, Some 3); (2, Some 0); (3, Some 2)]%Z)) 4).1
  = S (Z.to_nat 4) ∧
  (print_solution
     (Some (list_to_map [(0, Some 1); (1, Some 3); (2, Some 0); (3, Some 2)]%Z)) 4
   = print_solution
       (Some (list_to_map [(0, Some 1); (1, Some 3); (2, Some 0); (3, Some 2)]%Z)) 4 →
   ∀ r, r ∈ range 4 → four_queens_placement r = four_queens_placement r).
Proof.
  assert (∀ r, r ∈ range 4 →
    (list_to_map [(0, Some 1); (1, Some 3); (2, Some 0); (3, Some 2)]%Z
     : gmap Z (option Z)) !! r = Some (Some (four_queens_placement r))) as Hrows.
  { intros r Hr%elem_of_range.
    assert (r = 0 ∨ r = 1 ∨ r = 2 ∨ r = 3)%Z as H by lia.
    destruct H as [-> | [-> | [-> | ->]]]; vm_compute; reflexivity. }
  apply (print_solution_report _ _ 4 four_queens_placement
           four_queens_placement Hrows Hrows).
Defined.

(** [print_solution] on [None] prints one line.  On an assignment it stops
    at the first row of [range(n)] that has no column, after the lines of
    the rows before it: with [KeyError] when the row is no key, with
    [TypeError] when the row is unassigned. *)
Theorem print_solution_raises (assignment : gmap Z (option Z)) (n r : Z)
    (s : Z → Z)
    (Hr : r ∈ range n)
    (Hbefore : ∀ r', r' ∈ range r → assignment !! r' = Some (Some (s r'))) :
  print_solution None n = (["No solution found."], Returns) ∧
  (assignment !! r = None →
   print_solution (Some assignment) n
   = ("Solution found!" :: ((λ r, row_line r (s r)) <$> range r),
      Raises (Py KeyError))) ∧
  (assignment !! r = Some None →
   print_solution (Some assignment) n
   = ("Solution found!" :: ((λ r, row_line r (s r)) <$> range r),
      Raises TypeError)).
Proof.
  assert (∀ rs rs' out,
    (∀ r', r' ∈ rs → assignment !! r' = Some (Some (s r'))) →
    print_rows assignment (rs ++ rs') out
    = print_rows assignment rs' (out ++ ((λ r, row_line r (s r)) <$> rs)))
    as Hprefix.
  { intros rs rs'. induction rs as [|k rs IH]; intros out Hrs; simpl.
    - by rewrite app_nil_r.
    - rewrite (Hrs k) by (by left).
      rewrite IH; [|intros k' ?; apply Hrs; by right].
      by rewrite <- (assoc_L (++)). }
  assert (range n = range r ++ r :: seqZ (r + 1) (n - r - 1)) as Hsplit.
  { apply elem_of_range in Hr. unfold range.
    replace n with (r + (n - r))%Z at 1 by lia.
    rewrite seqZ_app by lia. f_equal. rewrite seqZ_cons by lia.
    replace (0 + r)%Z with r by lia.
    by replace (Z.pred (n - r)) with (n - r - 1)%Z by lia. }
  split_and!; [done|..]; intros Hrow; unfold print_solution;
    rewrite Hsplit, Hprefix by done; simpl; by rewrite Hrow.
Qed.

Lemma print_solution_raises_witness :
  print_solution None 3 = (["No solution found."], Returns) ∧
  (initial_assignment 3 !! 0%Z = None →
   print_solution (Some (initial_assignment 3)) 3
   = ("Solution found!" :: ((λ r, row_line r 0) <$> range 0),
      Raises (Py KeyError))) ∧
  (initial_assignment 3 !! 0%Z = Some None →
   print_solution (Some (initial_assignment 3)) 3
   = ("Solution found!" :: ((λ r, row_line r 0) <$> range 0),
      Raises TypeError)).
Proof.
  apply (print_solution_raises (initial_assignment 3) 3 0 (λ _, 0%Z)).
  - by apply elem_of_range.
  - by intros r' ?%elem_of_nil.
Defined.

(** [main] on the command line, whatever the order in which the copies of
    the snapshots iterate.  Without an argument it prints the usage line and
    exits with 1; when [int] raises, so does [main]; for [n < 10] it prints
    the bounds line and exits with 0, without solving; for [n >= 10] (the
    bound 1000 of the message is not checked) it runs the solver and
    returns, having printed either ["No solution found"], and then [n]
    queens cannot be placed, or the heading and the [n] lines of a peaceful
    placement on the board.  The search of the solver nests [n + 1] calls;
    an interpreter that allows fewer raises [RecursionError], which is no
    outcome of the model. *)
Theorem main_spec (set_copy : copy_order) (int : string → option Z)
    (argv : list string)
    (Hcopy : copies set_copy) :
  (length argv < 2 →
   main set_copy int argv = (["Usage: python main.py <n>"], Exits 1)) ∧
  (∀ arg, argv !! 1 = Some arg → int arg = None →
   main set_copy int argv = ([], Raises ValueError)) ∧
  (∀ arg n, argv !! 1 = Some arg → int arg = Some n →
     ((n < 10)%Z →
      main set_copy int argv
      = (["The value must be between 10<=n<=1000"], Exits 0)) ∧
     ((10 ≤ n)%Z →
      (¬ solvable n ∧
       main set_copy int argv = (["No solution found"], Returns)) ∨
      (∃ s, (∀ r, r ∈ range n → s r ∈ range n) ∧ peaceful n s ∧
            main set_copy int argv
            = ("Solution found!" :: ((λ r, row_line r (s r)) <$> range n),
               Returns)))).
Proof.
  split_and!.
  - intros Hlen. unfold main. by rewrite bool_decide_true.
  - intros arg Harg Hint. unfold main.
    rewrite bool_decide_false by (apply lookup_lt_Some in Harg; lia).
    by rewrite Harg, Hint.
  - intros arg n Harg Hint.
    assert (main set_copy int argv =
      if (n <? 10)%Z then
        (["The value must be between 10<=n<=1000"], Exits 0)
      else
        match solve_nqueens_csp set_copy n with
        | Ok assignment =>
            if truthy assignment then print_solution assignment n
            else (["No solution found"], Returns)
        | Raise e => ([], Raises (Py e))
        | OutOfFuel => ([], Unfinished)
        end) as ->.
    { unfold main.
      rewrite bool_decide_false by (apply lookup_lt_Some in Harg; lia).
      by rewrite Harg, Hint. }
    split.
    + intros Hn. by rewrite (proj2 (Z.ltb_lt n 10) Hn).
    + intros Hn. rewrite (proj2 (Z.ltb_ge n 10) Hn).
      destruct (solve_nqueens_csp_outcome set_copy n Hcopy)
        as (result & -> & Hwhat).
      destruct result as [a|]; [right|by left].
      destruct (solution_placement _ _ Hwhat) as (Hrows & Hcols & Hs).
      exists (placement_of a). split_and!; [done..|].
      assert (truthy (Some a) = true) as ->.
      { apply bool_decide_eq_true. intros ->.
        specialize (Hrows 0%Z). rewrite lookup_empty in Hrows.
        assert (0%Z ∈ range n) as H0 by (apply elem_of_range; lia).
        by specialize (Hrows H0). }
      unfold print_solution. by rewrite (print_rows_placement a (placement_of a)).
Qed.

Lemma main_spec_witness :
  (length ["main.py"; "12"] < 2 →
   main reversed (λ arg, if decide (arg = "12") then Some 12%Z else None)
     ["main.py"; "12"]
   = (["Usage: python main.py <n>"], Exits 1)) ∧
  (∀ arg, ["main.py"; "12"] !! 1 = Some arg →
     (if decide (arg = "12") then Some 12%Z else None) = None →
   main reversed (λ arg, if decide (arg = "12") then Some 12%Z else None)
     ["main.py"; "12"]
   = ([], Raises ValueError)) ∧
  (∀ arg n, ["main.py"; "12"] !! 1 = Some arg →
     (if decide (arg = "12") then Some 12%Z else None) = Some n →
     ((n < 10)%Z →
      main reversed (λ arg, if decide (arg = "12") then Some 12%Z else None)
        ["main.py"; "12"]
      = (["The value must be between 10<=n<=1000"], Exits 0)) ∧
     ((10 ≤ n)%Z →
      (¬ solvable n ∧
       main reversed (λ arg, if decide (arg = "12") then Some 12%Z else None)
         ["main.py"; "12"]
       = (["No solution found"], Returns)) ∨
      (∃ s, (∀ r, r ∈ range n → s r ∈ range n) ∧ peaceful n s ∧
            main reversed
              (λ arg, if decide (arg = "12") then Some 12%Z else None)
              ["main.py"; "12"]
            = ("Solution found!" :: ((λ r, row_line r (s r)) <$> range n),
               Returns)))).
Proof.
  apply (main_spec reversed
           (λ arg, if decide (arg = "12") then Some 12%Z else None)
           ["main.py"; "12"]), reversed_copies.
Defined.

(** ** What a successful search has chosen *)

Lemma same_sets_chosen_from (d d' : gmap Z (list Z))
    (a a' : gmap Z (option Z)) :
  same_sets d d' → chosen_from d' a a' → chosen_from d a a'.
Proof.
  intros H Hchosen r c Hr Hr'.
  destruct (Hchosen r c Hr Hr') as (di' & Hdi' & Hc).
  destruct (same_sets_lookup_inv _ _ _ _ H Hdi') as (di & ? & Hp).
  exists di. split; [done|]. by rewrite <- Hp.
Qed.

Lemma try_cols_respects (set_copy : copy_order)
    (recurse : gmap Z (list Z) → gmap Z (option Z) → res (bool * search_state))
    (neighbors : gmap Z (list Z)) (n row : Z) :
  copies set_copy →
  neighbors_in_range neighbors n →
  restores_and_solves n recurse → respects recurse →
  row ∈ range n →
  ∀ candidate_cols domains assignment domains' assignment',
    assignment !! row = Some None →
    (∀ c, c ∈ candidate_cols → ∃ di, domains !! row = Some di ∧ c ∈ di) →
    try_cols set_copy recurse neighbors n row candidate_cols domains assignment
    = Ok (true, (domains', assignment')) →
    keeps_assigned assignment assignment' ∧
    chosen_from domains assignment assignment'.
Proof.
  intros Hcopy Hin Hrestores Hrespects Hrow.
  induction candidate_cols as [|col cols IH];
    intros d a d' a' Hunassigned Hcols H; simpl in H; [done|].
  assert (∀ c, c ∈ cols → ∃ di, d !! row = Some di ∧ c ∈ di) as Hcols'.
  { intros c ?. apply Hcols. by right. }
  inv_bind H. rename a0 into clash. destruct clash; simpl in H.
  { by eapply IH. }
  inv_bind H. rename a0 into saved, Ha0 into Hsaved.
  inv_bind H. destruct a0 as [consistent d2]. rename Ha0 into Hac3.
  inv_bind H. destruct a0 as [found [d3 a3]]. rename Ha0 into Hnested.
  destruct found.
  - simplify_eq. destruct consistent; [|done].
    apply Hrespects in Hnested as [Hkeeps Hchosen]. split.
    + intros r c Hr. apply Hkeeps.
      rewrite lookup_insert_ne; [done|]. intros ->. congruence.
    + intros r c Hr Hr'. destruct (decide (row = r)) as [<-|Hne].
      * rewrite (Hkeeps row col) in Hr' by apply lookup_insert_eq.
        simplify_eq. apply Hcols. by left.
      * destruct (Hchosen r c) as (di & Hdi & Hc);
          [by rewrite lookup_insert_ne|done|].
        destruct (shrinks_lookup_inv _ _ _ _ (AC3_shrinks _ _ _ _ _ Hac3) Hdi)
          as (di0 & Hdi0 & Hsub).
        rewrite lookup_insert_ne in Hdi0 by done.
        exists di0. split; [done|]. by eapply elem_of_sublist.
  - assert (same_sets d2 d3 ∧ a3 = <[row := Some col]> a) as [Hd3 ->].
    { destruct consistent.
      - apply Hrestores in Hnested as [Hf _]. by apply Hf.
      - simplify_eq. split; [apply same_sets_refl|done]. }
    inv_bind H. rename a0 into restored, Ha0 into Hrestored.
    assert (same_sets d restored) as Hback.
    { by eapply (restore_after_failure (set_copy (<[row := Some col]> a))). }
    rewrite insert_insert_eq, (insert_id a row None) in H by done.
    destruct (IH restored a d' a') as [Hkeeps Hchosen]; [done| |done|].
    + intros c (di & Hdi & Hc)%Hcols'.
      destruct (same_sets_lookup _ _ _ _ Hback Hdi) as (di' & ? & Hp).
      exists di'. split; [done|]. by rewrite Hp.
    + split; [done|]. by eapply same_sets_chosen_from.
Qed.

Lemma backtracking_search_fuel_respects (set_copy : copy_order)
    (neighbors : gmap Z (list Z)) (n : Z) (fuel : nat) :
  copies set_copy →
  neighbors_in_range neighbors n →
  respects (λ domains assignment,
              backtracking_search_fuel set_copy fuel domains neighbors
                assignment n).
Proof.
  intros Hcopy Hin.
  induction fuel as [|fuel IH]; intros d a d' a' H; [done|].
  simpl in H. inv_bind H. rename a0 into unassigned_rows.
  apply unassigned_Ok in Ha as [Hkeys ->].
  case_bool_decide as Hnil.
  { simplify_eq. split; [by intros r c Hr|].
    intros r c Hr Hr'. congruence. }
  inv_bind H. destruct a0 as [row post].
  apply select_unassigned_row_Ok in Ha as (-> & Hhead & _).
  assert (row ∈ range n ∧ a !! row = Some None) as [Hrow Hunassigned].
  { apply head_Some_elem_of in Hhead. rewrite sorted_by_perm in Hhead.
    by apply list_elem_of_filter in Hhead as [? ?]. }
  simpl in H. inv_bind H. destruct a0 as [cols post].
  apply order_domain_values_Ok in Ha as (-> & values & Hvalues & -> & _).
  simpl in H.
  eapply (try_cols_respects _ _ _ _ _ Hcopy Hin
            (backtracking_search_fuel_spec _ _ _ _ Hcopy Hin) IH Hrow);
    [done| |done].
  intros c Hc. rewrite sorted_by_perm in Hc. eauto.
Qed.

(** Whatever the order in which the copies of the snapshots iterate, and
    when the neighbours of the rows are rows of the board, a search that
    returns [True] from a state of the invariant returns a solution in which
    the rows that were assigned have kept their columns and every other row
    has a column of the domain it had. *)
Theorem backtracking_search_extends (set_copy : copy_order)
    (domains neighbors : gmap Z (list Z))
    (assignment : gmap Z (option Z)) (n : Z)
    (domains' : gmap Z (list Z)) (assignment' : gmap Z (option Z))
    (Hcopy : copies set_copy)
    (Hin : neighbors_in_range neighbors n)
    (Hinv : search_invariant n domains assignment)
    (Hcall : backtracking_search set_copy domains neighbors assignment n
             = Ok (true, (domains', assignment'))) :
  solution n assignment' ∧
  keeps_assigned assignment assignment' ∧
  chosen_from domains assignment assignment'.
Proof.
  split.
  - apply (backtracking_search_fuel_spec _ _ _ _ Hcopy Hin) in Hcall
      as [_ Ht].
    by apply Ht.
  - by apply (backtracking_search_fuel_respects _ _ _ _ Hcopy Hin) in Hcall.
Qed.

Lemma backtracking_search_extends_witness :
  solution 4
    (list_to_map [(0, Some 1); (1, Some 3); (2, Some 0); (3, Some 2)]%Z) ∧
  keeps_assigned first_row_placed
    (list_to_map [(0, Some 1); (1, Some 3); (2, Some 0); (3, Some 2)]%Z) ∧
  chosen_from first_row_assigned first_row_placed
    (list_to_map [(0, Some 1); (1, Some 3); (2, Some 0); (3, Some 2)]%Z).
Proof.
  apply (backtracking_search_extends reversed first_row_assigned
           (initial_neighbors 4) first_row_placed 4 four_queens).
  - apply reversed_copies.
  - apply initial_well_formed.
  - apply (search_invariant_assign 4 0 1 (initial_domains 4)
             (initial_assignment 4)).
    + apply initial_search_invariant.
    + by apply elem_of_range.
    + by apply elem_of_range.
    + vm_compute. reflexivity.
  - vm_compute. reflexivity.
Defined.

(** ** The cases of test_nqueens.py on boards with a solution *)

(** [test_nqueens_small_valid] and [test_nqueens_medium]: for 4 and for 8
    queens the solver returns an assignment, and no two of its rows
    conflict. *)
Example test_nqueens_valid (set_copy : copy_order) (n : Z) :
  copies set_copy → n = 4%Z ∨ n = 8%Z →
  ∃ assignment, solve_nqueens_csp set_copy n = Ok (Some assignment) ∧
    ∀ r1 r2, r1 ∈ range n → r2 ∈ range n → r1 ≠ r2 →
      ∃ c1 c2, assignment !! r1 = Some (Some c1) ∧
               assignment !! r2 = Some (Some c2) ∧
               conflict r1 c1 r2 c2 = false.
Proof.
  intros Hcopy Hn.
  destruct (solve_nqueens_csp_outcome set_copy n Hcopy)
    as (result & Hresult & Hwhat).
  destruct result as [a|].
  - exists a. split; [done|]. intros r1 r2 Hr1 Hr2 Hne.
    destruct Hwhat as (Hall & _ & Hfree).
    destruct (Hall r1 Hr1) as [c1 Hc1]. destruct (Hall r2 Hr2) as [c2 Hc2].
    exists c1, c2. split_and!; [done..|]. by eapply Hfree.
  - exfalso. apply Hwhat.
    assert (∃ a, solve_nqueens_csp same_order n = Ok (Some a)) as [a Ha].
    { destruct Hn as [-> | ->]; eexists; vm_compute; reflexivity. }
    eapply solution_solvable, solve_nqueens_csp_solution;
      [apply same_order_copies|done].
Qed.

(** The order of a restored set is not the order it had: when every copy
    iterates in reverse, the search of three queens from the full domains
    returns [False] with the members of every domain in the reverse order.
    The domains are the same sets, not the same lists. *)
Example restored_order :
  backtracking_search reversed (initial_domains 3) (initial_neighbors 3)
    (initial_assignment 3) 3
  = Ok (false, (three_queens_snapshot, initial_assignment 3)) ∧
  three_queens_snapshot ≠ initial_domains 3 ∧
  same_sets (initial_domains 3) three_queens_snapshot.
Proof.
  assert (backtracking_search reversed (initial_domains 3)
            (initial_neighbors 3) (initial_assignment 3) 3
          = Ok (false, (three_queens_snapshot, initial_assignment 3))) as Hcall.
  { vm_compute. reflexivity. }
  split_and!; [done| |].
  - intros H. apply (f_equal (λ d : gmap Z (list Z), d !! 0%Z)) in H.
    vm_compute in H. discriminate.
  - apply (backtracking_search_fuel_spec reversed _ _ _ reversed_copies)
      in Hcall as [Hf _]; [by apply Hf|apply initial_well_formed].
Qed.
